(** * vue-zod-form-validator: the composable of [src/useZodFormValidator.ts]

    A shallow embedding of the form validator and the properties its
    specification states about it.

    Modelling conventions.

    - A JavaScript value is a [JsValue]; numbers are IEEE doubles
      ([PrimFloat.float]), objects other than the maps below are known by
      their reference only.
    - An object used as a dictionary ([values.value], [errors.value], the
      schema's [shape]) is a [gmap] of its own enumerable properties.  Reading
      a property ([o[k]]) and the [in] operator also see what every plain
      object inherits from [Object.prototype].  An assignment [o[k] = v]
      of a boolean or a string defines or updates the own property [k],
      except under the name [__proto__]: unless [o] has an own property of
      that name, the assignment reaches the setter inherited from
      [Object.prototype], which ignores such a value and writes nothing.
      The order in which [Object.keys] and [Object.values] enumerate a map is
      the one of [map_to_list]; no property below depends on it.
    - zod and the reactive cells of Vue are libraries the composable calls.
      A zod schema is known by its [safeParse] function, a cell by its
      content and by the names of its members.  The calls of [safeParse]
      considered are those that return a result; a schema whose refinement
      or transform throws, or is asynchronous, makes [safeParse] itself
      throw, and no statement below is about such a call.
    - A call either completes normally or throws; what it wrote to
      [errors.value] before throwing stays written. *)

From Stdlib Require Import ZArith String List PrimFloat DecimalString Lia.
From stdpp Require Import base option list gmap strings.

Local Open Scope string_scope.
Local Open Scope list_scope.
Local Open Scope Z_scope.

(** ** JavaScript values *)

Module Js.

Inductive JsValue : Type :=
| JUndefined
| JNull
| JBoolean (b : bool)
| JNumber (x : float)
| JString (s : string)
| JObject (ref : positive)
| JObjectPrototype (member : string).

(** [a === b].  Numbers compare as IEEE doubles, so [NaN === NaN] is false
    and [+0 === -0] is true; objects compare by reference. *)
Definition strict_eq (a b : JsValue) : bool :=
  match a, b with
  | JUndefined, JUndefined => true
  | JNull, JNull => true
  | JBoolean x, JBoolean y => bool_decide (x = y)
  | JNumber x, JNumber y => PrimFloat.eqb x y
  | JString s, JString t => bool_decide (s = t)
  | JObject r, JObject r' => bool_decide (r = r')
  | JObjectPrototype m, JObjectPrototype m' => bool_decide (m = m')
  | _, _ => false
  end.

(** [a !== b] *)
Definition strict_ne (a b : JsValue) : bool := negb (strict_eq a b).

(** Truthiness of a string: every string but the empty one. *)
Definition truthy_string (s : string) : bool := negb (bool_decide (s = "")).

(** The names every plain object inherits from [Object.prototype]. *)
Definition Object_prototype : list string :=
  [ "constructor"; "__defineGetter__"; "__defineSetter__"; "hasOwnProperty";
    "__lookupGetter__"; "__lookupSetter__"; "isPrototypeOf";
    "propertyIsEnumerable"; "toString"; "valueOf"; "__proto__";
    "toLocaleString" ].

Definition inherited (k : string) : bool := bool_decide (k ∈ Object_prototype).

(** What [o[k]] finds: an own property, a member of [Object.prototype], or
    nothing ([undefined]). *)
Inductive Property (V : Type) : Type :=
| Own (v : V)
| Inherited (member : string)
| Absent.
Arguments Own {V} v.
Arguments Inherited {V} member.
Arguments Absent {V}.

Definition get_property {V : Type} (o : gmap string V) (k : string) : Property V :=
  match o !! k with
  | Some v => Own v
  | None => if inherited k then Inherited k else Absent
  end.

(** [k in o] for a plain object [o]. *)
Definition has_property {V : Type} (k : string) (o : gmap string V) : bool :=
  bool_decide (is_Some (o !! k)) || inherited k.

(** [o[k]] when the own properties of [o] hold JavaScript values. *)
Definition get (o : gmap string JsValue) (k : string) : JsValue :=
  match get_property o k with
  | Own v => v
  | Inherited m => JObjectPrototype m
  | Absent => JUndefined
  end.

(** [o[k] = v] for a plain object [o] and a primitive value [v]. *)
Definition assign {V : Type} (o : gmap string V) (k : string) (v : V) : gmap string V :=
  if bool_decide (k = "__proto__") && negb (bool_decide (is_Some (o !! k)))
  then o
  else <[k := v]> o.

Definition Object_keys {V : Type} (o : gmap string V) : list string :=
  (map_to_list o).*1.

Definition Object_values {V : Type} (o : gmap string V) : list V :=
  (map_to_list o).*2.

(** [Array.prototype.findIndex]: the index of the first element the callback
    accepts, [-1] when there is none. *)
Fixpoint findIndex {A : Type} (p : A → bool) (l : list A) : Z :=
  match l with
  | [] => -1
  | x :: l' => if p x then 0 else
                 let i := findIndex p l' in
                 if i =? -1 then -1 else i + 1
  end.

(** [Array.prototype.join] on strings. *)
Fixpoint join (sep : string) (l : list string) : string :=
  match l with
  | [] => ""
  | [x] => x
  | x :: l' => (x ++ sep ++ join sep l')%string
  end.

(** A reactive cell ([Ref<T>]): its content, and the names of the members of
    the cell object itself ([value] at least).  The fields of the map a cell
    holds are members of [value r], not of the cell. *)
Record Ref (T : Type) : Type := mkRef {
  members : list string;
  value : T
}.
Arguments mkRef {T} members value.
Arguments members {T} r.
Arguments value {T} r.

(** [k in r] for a cell [r]. *)
Definition in_ref {T : Type} (k : string) (r : Ref T) : bool :=
  bool_decide (k ∈ members r) || inherited k.

(** The cell the test file builds: [const r = { value: initialValue }]. *)
Definition mockRef {T : Type} (initialValue : T) : Ref T :=
  mkRef ["value"] initialValue.

End Js.
Export Js.

(** ** The interface of zod *)

Module Zod.

Inductive PathSegment : Type :=
| PKey (k : string)
| PIndex (i : N).

Record ZodIssue : Type := mkIssue {
  path : list PathSegment;
  message : string
}.

(** A [ZodError]: zod reports a failure together with at least one issue,
    so [issues[0]] is always there. *)
Record ZodError : Type := mkError {
  first_issue : ZodIssue;
  more_issues : list ZodIssue
}.

Definition issues (e : ZodError) : list ZodIssue :=
  first_issue e :: more_issues e.

(** What [safeParse] returns: [{ success: true, data }] or
    [{ success: false, error }]. *)
Inductive SafeParseReturn (T : Type) : Type :=
| ParseSuccess (data : T)
| ParseFailure (error : ZodError).
Arguments ParseSuccess {T} data.
Arguments ParseFailure {T} error.

(** A schema for one field: anything with a [safeParse]. *)
Record ZodType : Type := mkZodType {
  safeParse : JsValue → SafeParseReturn JsValue
}.

(** The schema handed to the composable: an instance of [z.ZodObject], with
    its [shape] and its own whole-object parse, or any other zod schema. *)
Inductive ZodSchema : Type :=
| ZodObject (shape : gmap string ZodType)
            (parse : gmap string JsValue → SafeParseReturn (gmap string JsValue))
| ZodOther (rule : ZodType).

(** [String(segment)] as [join] applies it to the elements of a path. *)
Definition segment_to_string (s : PathSegment) : string :=
  match s with
  | PKey k => k
  | PIndex i => NilEmpty.string_of_uint (N.to_uint i)
  end.

(** [issue.path.join('.')] *)
Definition path_join (p : list PathSegment) : string :=
  join "." (segment_to_string <$> p).

End Zod.
Export Zod.

(** ** The composable *)

Module Validator.

(** An entry of [errors.value]: [boolean | string]. *)
Inductive ErrorValue : Type :=
| EBoolean (b : bool)
| EString (s : string).

(** [typeof value === 'string'] *)
Definition is_string (value : ErrorValue) : bool :=
  match value with EString _ => true | EBoolean _ => false end.

(** [value === true] *)
Definition is_true (value : ErrorValue) : bool :=
  match value with EBoolean b => b | EString _ => false end.

(** Truthiness of an entry. *)
Definition truthy (value : ErrorValue) : bool :=
  match value with EBoolean b => b | EString s => truthy_string s end.

(** What a call can throw: an [Error] the composable raises itself, or the
    [TypeError] of the runtime (a call of, or a read from, [undefined]). *)
Inductive Exception : Type :=
| Error (message : string)
| TypeError.

Inductive Completion (A : Type) : Type :=
| Normal (a : A)
| Throw (e : Exception).
Arguments Normal {A} a.
Arguments Throw {A} e.

(** The two cells the composable works on: [values], owned by the caller and
    only read here, and the content of [errors], created by the composable. *)
Record Store : Type := mkStore {
  values : Ref (gmap string JsValue);
  errors : gmap string ErrorValue
}.

Definition M (A : Type) : Type := Store → Completion A * Store.

Definition ret {A : Type} (a : A) : M A := λ st, (Normal a, st).

Definition throw {A : Type} (e : Exception) : M A := λ st, (Throw e, st).

Definition bind {A B : Type} (m : M A) (k : A → M B) : M B :=
  λ st, match m st with
        | (Normal a, st') => k a st'
        | (Throw e, st') => (Throw e, st')
        end.

Declare Scope js_scope.
Delimit Scope js_scope with js.
Notation "'let*' x ':=' m 'in' k" := (bind m (λ x, k))
  (at level 10, x name, m at level 100, k at level 200) : js_scope.
Notation "m ';;' k" := (bind m (λ _, k))
  (at level 100, k at level 200, right associativity) : js_scope.
Local Open Scope js_scope.

(** [values.value] *)
Definition read_values : M (gmap string JsValue) :=
  λ st, (Normal (value (values st)), st).

(** [errors.value] *)
Definition read_errors : M (gmap string ErrorValue) :=
  λ st, (Normal (errors st), st).

(** [errors.value = o] *)
Definition write_errors (o : gmap string ErrorValue) : M unit :=
  λ st, (Normal (), mkStore (values st) o).

(** [errors.value[name] = v] *)
Definition set_error (name : string) (v : ErrorValue) : M unit :=
  λ st, (Normal (), mkStore (values st) (assign (errors st) name v)).

(** A [for ... of] loop whose body may throw. *)
Fixpoint for_of {A : Type} (l : list A) (body : A → M unit) : M unit :=
  match l with
  | [] => ret ()
  | x :: l' => body x ;; for_of l' body
  end.

(** The argument of [handleInputBlur], as the function tells its cases
    apart: a string, an object with its [target] (if it has one that is not
    falsy), anything else. *)
Record EventTarget : Type := mkTarget {
  target_name : option string;
  target_value : JsValue
}.

Inductive Trigger : Type :=
| TString (s : string)
| TObject (target : option EventTarget)
| TOther.

Inductive Mode : Type := onBlur | onChange.

Record Options : Type := mkOptions { mode : Mode }.

(** [{ mode: 'onBlur' }], the default of the third parameter. *)
Definition default_options : Options := mkOptions onBlur.

Module ValidateResult.
Record t : Type := mk {
  isValid : bool;
  sanitizedValues : gmap string JsValue
}.
End ValidateResult.

(** [!result.success && result.error ? result.error.issues[0].message : false] *)
Definition error_entry {T : Type} (result : SafeParseReturn T) : ErrorValue :=
  match result with
  | ParseFailure error => EString (message (first_issue error))
  | ParseSuccess _ => EBoolean false
  end.

(** The derived cell [isValid] (lines 25-27), read in a given store. *)
Definition isValid (st : Store) : bool :=
  findIndex (λ value, is_string value || is_true value)
            (Object_values (errors st)) =? -1.

Section Composable.

(** [z.object]: the parse of the object schema zod builds for a shape. *)
Variable z_object :
  gmap string ZodType → gmap string JsValue → SafeParseReturn (gmap string JsValue).

(** [validationSchema.safeParse] *)
Variable validationSchema_safeParse :
  gmap string JsValue → SafeParseReturn (gmap string JsValue).

(** [schema] (line 23): the [shape] of [validationSchema], an object, hence
    truthy. *)
Variable schema : gmap string ZodType.

(** Lines 30-44: the name and the value a trigger stands for. *)
Definition resolve (e : Trigger) : M (string * JsValue) :=
  match e with
  | TString s =>
      if truthy_string s then
        let* current := read_values in
        ret (s, get current s)
      else throw (Error "handleInputBlur got wrong event type")
  | TObject (Some target) =>
      match target_name target with
      | Some n =>
          if truthy_string n then
            λ st, ret (n, if in_ref n (values st)
                          then get (value (values st)) n
                          else target_value target) st
          else
            throw (Error "handleInputBlur must be used with an input that has a name attribute")
      | None =>
          throw (Error "handleInputBlur must be used with an input that has a name attribute")
      end
  | TObject None | TOther =>
      throw (Error "handleInputBlur got wrong event type")
  end.

(** Truthiness of [schema[name]]: a schema and a member of
    [Object.prototype] are objects, [undefined] is falsy. *)
Definition truthy_property {V : Type} (p : Property V) : bool :=
  match p with Own _ | Inherited _ => true | Absent => false end.

(** Lines 45-48. *)
Definition validate_resolved (name : string) (value : JsValue) : M unit :=
  if truthy_string name && has_property name schema
     && truthy_property (get_property schema name)
  then
    match get_property schema name with
    | Own rule => set_error name (error_entry (safeParse rule value))
    | Inherited _ => throw TypeError
    | Absent => throw TypeError
    end
  else ret ().

Definition handleInputBlur (e : Trigger) : M unit :=
  let* r := resolve e in
  validate_resolved r.1 r.2.

Definition validateProperty (name : string) (value : JsValue) : M (Property ErrorValue) :=
  match get_property schema name with
  | Own rule =>
      set_error name (error_entry (safeParse rule value)) ;;
      let* current := read_errors in
      ret (get_property current name)
  | Inherited _ => throw TypeError
  | Absent => throw TypeError
  end.

Definition overrideFieldError (name : string) (errorValue : ErrorValue) : M unit :=
  set_error name errorValue.

Definition validate : M ValidateResult.t :=
  write_errors ∅ ;;
  let* current := read_values in
  let result := validationSchema_safeParse current in
  match result with
  | ParseFailure error =>
      for_of (issues error)
             (λ issue, set_error (path_join (path issue)) (EString (message issue)))
  | ParseSuccess _ => ret ()
  end ;;
  let* errs := read_errors in
  ret (ValidateResult.mk
         (findIndex (λ value, is_string value || truthy value) (Object_values errs) =? -1)
         (match result with ParseSuccess data => data | ParseFailure _ => ∅ end)).

Definition getSanitizedValues : M (gmap string JsValue) :=
  let* current := read_values in
  match z_object schema current with
  | ParseSuccess data => ret data
  | ParseFailure _ => ret ∅
  end.

Definition clear : M unit := write_errors ∅.

Definition diffKeys (obj1 obj2 : gmap string JsValue) : list string :=
  fold_left (λ keys key, if strict_ne (get obj1 key) (get obj2 key)
                         then keys ++ [key] else keys)
            (Object_keys obj1) [].

(** Line 96. *)
Definition propertiesThatChanged (newValues oldValues : gmap string JsValue) : list string :=
  diffKeys newValues oldValues.

(** The callback handed to [watch] (lines 95-102). *)
Definition watch_callback (newValues oldValues : gmap string JsValue) : M unit :=
  let changed := propertiesThatChanged newValues oldValues in
  if (1 <? length changed)%nat then
    for_of changed (λ propertyThatChanged,
      validateProperty propertyThatChanged (get newValues propertyThatChanged) ;; ret ())
  else ret ().

(** Lines 94-103: the subscription exists in [onChange] mode only. *)
Definition subscription (options : Options)
  : option (gmap string JsValue → gmap string JsValue → M unit) :=
  match mode options with
  | onChange => Some watch_callback
  | onBlur => None
  end.

End Composable.

End Validator.
Export Validator.

(** ** Construction *)

(** The object the composable returns.  [errors] is the [errors] component of
    the store; [subscription] is what [watch] was given, if it was called. *)
Module Instance.
Record t : Type := mk {
  isValid : Store → bool;
  clear : M unit;
  handleInputBlur : Trigger → M unit;
  overrideFieldError : string → ErrorValue → M unit;
  validate : M ValidateResult.t;
  getSanitizedValues : M (gmap string JsValue);
  subscription : option (gmap string JsValue → gmap string JsValue → M unit)
}.
End Instance.

Local Open Scope js_scope.

(** The default export (lines 14-114).  Its first argument, the cell
    [values], is the [values] component of the store it runs in. *)
Definition useZodFormValidator
    (z_object : gmap string ZodType → gmap string JsValue
                → SafeParseReturn (gmap string JsValue))
    (validationSchema : ZodSchema) (options : Options) : M Instance.t :=
  match validationSchema with
  | ZodObject shape parse =>
      write_errors ∅ ;;
      ret (Instance.mk isValid
                       clear
                       (handleInputBlur shape)
                       overrideFieldError
                       (validate parse)
                       (getSanitizedValues z_object shape)
                       (subscription shape options))
  | ZodOther _ =>
      throw (Error "validationSchema needs to be Zod schema, use z.object{...}")
  end.

(** What the reactive runtime does with the subscription when [values.value]
    has been replaced: it calls the callback with the new and the previous
    content. *)
Definition notify (schema : gmap string ZodType) (options : Options)
    (newValues oldValues : gmap string JsValue) : M unit :=
  match subscription schema options with
  | Some callback => callback newValues oldValues
  | None => ret ()
  end.

(** ** Schemas and stores used in the examples *)

Module Examples.

(** A rule that behaves as [z.string().min(5)] does in the tests. *)
Definition string_min_5 : ZodType :=
  mkZodType (λ v,
    match v with
    | JString s =>
        if (String.length s <? 5)%nat
        then ParseFailure (mkError (mkIssue [] "String must contain at least 5 character(s)") [])
        else ParseSuccess v
    | JUndefined => ParseFailure (mkError (mkIssue [] "Required") [])
    | _ => ParseFailure (mkError (mkIssue [] "Expected string") [])
    end).

(** A rule that behaves as [z.string()] does: strings pass unchanged. *)
Definition string_rule : ZodType :=
  mkZodType (λ v,
    match v with
    | JString _ => ParseSuccess v
    | JUndefined => ParseFailure (mkError (mkIssue [] "Required") [])
    | _ => ParseFailure (mkError (mkIssue [] "Expected string") [])
    end).

(** zod's parse of an object schema, for the two ways of treating keys the
    shape does not list that the examples use: [strip], the default of
    [z.object], drops them from the output; [passthrough] keeps them. *)
Inductive UnknownKeys : Type := strip | passthrough.

Definition prefix_issue (k : string) (i : ZodIssue) : ZodIssue :=
  mkIssue (PKey k :: path i) (message i).

Definition parse_fields (shape : gmap string ZodType) (input : gmap string JsValue)
  : list ZodIssue * gmap string JsValue :=
  fold_right
    (λ '(k, rule) acc,
       match safeParse rule (get input k) with
       | ParseSuccess d =>
           (acc.1, if has_property k input || strict_ne d JUndefined
                   then <[k := d]> acc.2 else acc.2)
       | ParseFailure e => ((prefix_issue k <$> issues e) ++ acc.1, acc.2)
       end)
    (([] : list ZodIssue), (∅ : gmap string JsValue)) (map_to_list shape).

Definition object_parse (unknownKeys : UnknownKeys) (shape : gmap string ZodType)
    (input : gmap string JsValue) : SafeParseReturn (gmap string JsValue) :=
  let r := parse_fields shape input in
  match r.1 with
  | i :: l => ParseFailure (mkError i l)
  | [] =>
      ParseSuccess
        match unknownKeys with
        | strip => r.2
        | passthrough => r.2 ∪ filter (λ kv, shape !! kv.1 = None) input
        end
  end.

(** [z.object(shape)] *)
Definition z_object (shape : gmap string ZodType) :=
  object_parse strip shape.

Definition empty_store : Store := mkStore (mockRef ∅) ∅.

End Examples.

(** ** Auxiliary notions *)

(** [validationSchema instanceof z.ZodObject] *)
Definition instanceof_ZodObject (validationSchema : ZodSchema) : bool :=
  match validationSchema with
  | ZodObject _ _ => true
  | ZodOther _ => false
  end.

(** The errors map after the entries of a list have been written in order. *)
Definition written {A : Type} (key : A → string) (entry : A → ErrorValue)
    (l : list A) (errs : gmap string ErrorValue) : gmap string ErrorValue :=
  fold_left (λ acc x, assign acc (key x) (entry x)) l errs.

(** The entries [validate] writes for the issues of a failed parse. *)
Definition issue_entries (error : ZodError) : gmap string ErrorValue :=
  written (λ issue, path_join (path issue)) (λ issue, EString (message issue))
          (issues error) ∅.

(** The entry the rule of a field gives for the value the field has in a
    snapshot. *)
Definition rule_entry (schema : gmap string ZodType)
    (snapshot : gmap string JsValue) (k : string) : ErrorValue :=
  match schema !! k with
  | Some rule => error_entry (safeParse rule (get snapshot k))
  | None => EBoolean false
  end.

(** The fields whose value changed in an update: the names, of either
    snapshot, under which the new snapshot reads a value that is not strictly
    equal to the one the old snapshot reads. *)
Definition changed_fields (oldValues newValues : gmap string JsValue) : gset string :=
  filter (λ k, strict_ne (get newValues k) (get oldValues k) = true)
         (dom oldValues ∪ dom newValues).

(** ** The statements of the specification that the code does not meet *)

(** What the specification says [isValid] decides: no entry is a non-empty
    string and no entry is [true]. *)
Definition no_nonempty_string_no_true (errs : gmap string ErrorValue) : Prop :=
  (∀ k s, errs !! k = Some (EString s) → s = "")
  ∧ (∀ k, errs !! k ≠ Some (EBoolean true)).

(** What the specification says the diff of the subscription returns: the
    names present in the previous snapshot whose value differs from the one
    in the current snapshot. *)
Definition differs_from_previous (previous current : gmap string JsValue)
    (k : string) : Prop :=
  is_Some (previous !! k) ∧ strict_ne (get previous k) (get current k) = true.

(** What C4 states, for one update seen by the subscription of [onChange]
    mode. *)
Definition onChange_claim (schema : gmap string ZodType) (st : Store)
    (newValues oldValues : gmap string JsValue) : Prop :=
  (size (changed_fields oldValues newValues) = 1%nat →
   notify schema (mkOptions onChange) newValues oldValues st = (Normal (), st))
  ∧ ((2 ≤ size (changed_fields oldValues newValues))%nat →
     ∃ st', notify schema (mkOptions onChange) newValues oldValues st = (Normal (), st')
       ∧ ∀ k, k ∈ changed_fields oldValues newValues →
           ∃ rule, schema !! k = Some rule
             ∧ errors st' !! k
               = Some (match safeParse rule (get newValues k) with
                       | ParseFailure error => EString (message (first_issue error))
                       | ParseSuccess _ => EBoolean false
                       end)).

(** What C6 states, for one field name. *)
Definition field_trigger_claim (schema : gmap string ZodType) (name : string)
    (st : Store) : Prop :=
  ∀ rule, schema !! name = Some rule →
    ∃ st', handleInputBlur schema (TString name) st = (Normal (), st')
      ∧ errors st' !! name
        = Some (match safeParse rule (get (value (values st)) name) with
                | ParseFailure error => EString (message (first_issue error))
                | ParseSuccess _ => EBoolean false
                end).

(** What C7 states, for one store: when the values satisfy the schema,
    [getSanitizedValues()] returns what [validate()] returned as
    [sanitizedValues]. *)
Definition sanitized_claim
    (z_object : gmap string ZodType → gmap string JsValue
                → SafeParseReturn (gmap string JsValue))
    (parse : gmap string JsValue → SafeParseReturn (gmap string JsValue))
    (schema : gmap string ZodType) (st : Store) : Prop :=
  ∀ data, parse (value (values st)) = ParseSuccess data →
    ∃ r st', validate parse st = (Normal r, st')
      ∧ (getSanitizedValues z_object schema st').1
        = Normal (ValidateResult.sanitizedValues r).

(** ** Notions used by the further properties *)

(** The two errors [handleInputBlur] raises itself (lines 38 and 43). *)
Definition wrong_event_type : Exception :=
  Error "handleInputBlur got wrong event type".

Definition missing_name_attribute : Exception :=
  Error "handleInputBlur must be used with an input that has a name attribute".

(** The entry of the last issue, in the order zod reports them, whose dotted
    path is [k]. *)
Definition last_message (k : string) (l : list ZodIssue) : option ErrorValue :=
  (λ issue, EString (message issue))
    <$> last (List.filter (λ issue, bool_decide (path_join (path issue) = k)) l).

(** Every issue of the error has the dotted path [__proto__]. *)
Definition only_proto_paths (error : ZodError) : bool :=
  forallb (λ issue, bool_decide (path_join (path issue) = "__proto__"))
          (issues error).

(** No entry is boolean [true]. *)
Definition no_true_entry (errs : gmap string ErrorValue) : Prop :=
  ∀ k, errs !! k ≠ Some (EBoolean true).

(** ** Arrays and enumeration *)

Section Enumeration.

Context {A : Type}.

Lemma findIndex_lower (p : A → bool) (l : list A) : -1 ≤ findIndex p l.
Proof.
  induction l as [|x l IH]; simpl; [lia|].
  destruct (p x); [lia|].
  destruct (Z.eqb_spec (findIndex p l) (-1)); lia.
Qed.

Lemma findIndex_none (p : A → bool) (l : list A) :
  findIndex p l = -1 ↔ ∀ x, x ∈ l → p x = false.
Proof.
  induction l as [|x l IH]; simpl.
  - split; [|done]. intros _ y Hy. by apply elem_of_nil in Hy.
  - destruct (p x) eqn:Hx.
    + split; [lia|]. intros H. specialize (H x (list_elem_of_here _ _)). congruence.
    + pose proof (findIndex_lower p l) as Hlow.
      destruct (Z.eqb_spec (findIndex p l) (-1)) as [Heq|Hne].
      * split; [|done]. intros _ y [->|Hy]%elem_of_cons; [done|].
        by apply IH.
      * split; [lia|]. intros H. exfalso. apply Hne, IH.
        intros y Hy. apply H. by apply list_elem_of_further.
Qed.

Lemma findIndex_ext (p q : A → bool) (l : list A) :
  (∀ x, p x = q x) → findIndex p l = findIndex q l.
Proof.
  intros Hpq. induction l as [|x l IH]; simpl; [done|].
  by rewrite Hpq, IH.
Qed.

End Enumeration.

Lemma elem_of_Object_values {V : Type} (o : gmap string V) (v : V) :
  v ∈ Object_values o ↔ ∃ k, o !! k = Some v.
Proof.
  unfold Object_values. rewrite list_elem_of_fmap. split.
  - intros [[k w] [-> Hin]]. exists k. by apply elem_of_map_to_list.
  - intros [k Hk]. exists (k, v). split; [done|]. by apply elem_of_map_to_list.
Qed.

Lemma elem_of_Object_keys {V : Type} (o : gmap string V) (k : string) :
  k ∈ Object_keys o ↔ is_Some (o !! k).
Proof.
  unfold Object_keys. rewrite list_elem_of_fmap. split.
  - intros [[k' w] [-> Hin]]. exists w. by apply elem_of_map_to_list.
  - intros [v Hv]. exists (k, v). split; [done|]. by apply elem_of_map_to_list.
Qed.

Lemma NoDup_Object_keys {V : Type} (o : gmap string V) : NoDup (Object_keys o).
Proof. apply NoDup_fst_map_to_list. Qed.

(** The loop of [diffKeys] pushes, in order, the keys its test accepts. *)
Lemma push_loop_filter {K : Type} (test : K → bool) (l acc : list K) :
  fold_left (λ keys key, if test key then keys ++ [key] else keys) l acc
  = acc ++ List.filter test l.
Proof.
  revert acc. induction l as [|k l IH]; intros acc; simpl.
  - by rewrite app_nil_r.
  - rewrite IH. destruct (test k); [|done].
    by rewrite <- app_assoc.
Qed.

Lemma diffKeys_filter (obj1 obj2 : gmap string JsValue) :
  diffKeys obj1 obj2
  = List.filter (λ key, strict_ne (get obj1 key) (get obj2 key)) (Object_keys obj1).
Proof. unfold diffKeys. by rewrite push_loop_filter. Qed.

Lemma elem_of_diffKeys (obj1 obj2 : gmap string JsValue) (k : string) :
  k ∈ diffKeys obj1 obj2
  ↔ is_Some (obj1 !! k) ∧ strict_ne (get obj1 k) (get obj2 k) = true.
Proof.
  rewrite diffKeys_filter, list_elem_of_In, filter_In, <- list_elem_of_In.
  by rewrite elem_of_Object_keys.
Qed.

Lemma NoDup_diffKeys (obj1 obj2 : gmap string JsValue) : NoDup (diffKeys obj1 obj2).
Proof.
  rewrite diffKeys_filter. apply NoDup_ListNoDup, List.NoDup_filter.
  apply NoDup_ListNoDup, NoDup_Object_keys.
Qed.

(** ** Assignment *)

Section Assignment.

Context {V : Type}.
Implicit Types (o : gmap string V) (k : string) (v : V).

Lemma assign_ne_proto o k v : k ≠ "__proto__" → assign o k v = <[k := v]> o.
Proof. intros Hk. unfold assign. by rewrite bool_decide_eq_false_2. Qed.

Lemma assign_own o k v : is_Some (o !! k) → assign o k v = <[k := v]> o.
Proof.
  intros Hk. unfold assign. rewrite (bool_decide_eq_true_2 (is_Some _)) by done.
  by rewrite andb_false_r.
Qed.

Lemma assign_setter o v : o !! "__proto__" = None → assign o "__proto__" v = o.
Proof.
  intros Hnone. unfold assign.
  rewrite bool_decide_eq_true_2 by done.
  rewrite bool_decide_eq_false_2; [done|]. rewrite Hnone. by intros [? ?].
Qed.

Lemma assign_cases o k v :
  assign o k v = o ∧ k = "__proto__" ∧ o !! k = None
  ∨ assign o k v = <[k := v]> o ∧ (k ≠ "__proto__" ∨ is_Some (o !! k)).
Proof.
  destruct (decide (k = "__proto__")) as [->|Hk].
  - destruct (o !! "__proto__") as [w|] eqn:Ho.
    + right. split; [|right; by eexists]. apply assign_own. by eexists.
    + left. split; [by apply assign_setter|done].
  - right. split; [by apply assign_ne_proto|by left].
Qed.

Lemma lookup_assign_ne o k k' v : k ≠ k' → assign o k v !! k' = o !! k'.
Proof.
  intros Hne. destruct (assign_cases o k v) as [[-> _]|[-> _]]; [done|].
  by rewrite lookup_insert_ne.
Qed.

Lemma assign_is_Some o k k' v : is_Some (o !! k') → is_Some (assign o k v !! k').
Proof.
  intros Hk'. destruct (assign_cases o k v) as [[-> _]|[-> _]]; [done|].
  rewrite lookup_insert. by case_decide.
Qed.

Lemma assign_assign o k v w : assign (assign o k w) k v = assign o k v.
Proof.
  destruct (assign_cases o k w) as [[-> _]|[-> Hk]]; [done|].
  rewrite assign_own by (rewrite lookup_insert_eq; by eexists).
  rewrite insert_insert_eq.
  destruct Hk as [Hk|Hk]; [by rewrite assign_ne_proto|by rewrite assign_own].
Qed.

End Assignment.

(** ** Aggregate validity *)

Lemma isValid_true_iff (st : Store) :
  isValid st = true
  ↔ ∀ k v, errors st !! k = Some v → is_string v || is_true v = false.
Proof.
  unfold isValid. rewrite Z.eqb_eq, findIndex_none. split.
  - intros H k v Hk. apply H, elem_of_Object_values. by exists k.
  - intros H v [k Hk]%elem_of_Object_values. by apply (H k).
Qed.

(** C1, as stated, fails: after [overrideFieldError("a", "")] the only entry
    is the empty string, which is neither a non-empty string nor [true], and
    [isValid] reads [false]. *)
Lemma isValid_empty_message_counterexample :
  let st := (overrideFieldError "a" (EString "") Examples.empty_store).2 in
  ¬ (isValid st = true ↔ no_nonempty_string_no_true (errors st)).
Proof.
  intros st [_ H].
  assert (Hf : isValid st = false) by (vm_compute; reflexivity).
  rewrite H in Hf; [discriminate|].
  split.
  - intros k s. subst st. simpl. rewrite assign_ne_proto, lookup_insert by done.
    case_decide; simpl; [congruence|]. by rewrite lookup_empty.
  - intros k. subst st. simpl. rewrite assign_ne_proto, lookup_insert by done.
    case_decide; simpl; [congruence|]. by rewrite lookup_empty.
Qed.

(** C1, amended: [isValid] reads [true] if and only if no entry of the errors
    map is a string, empty or not, and no entry is boolean [true]; that is,
    if and only if every entry is [false]. *)
Theorem isValid_iff_every_entry_false (st : Store) :
  (isValid st = true
   ↔ (∀ k s, errors st !! k ≠ Some (EString s))
     ∧ (∀ k, errors st !! k ≠ Some (EBoolean true)))
  ∧ (isValid st = true ↔ ∀ k v, errors st !! k = Some v → v = EBoolean false).
Proof.
  rewrite isValid_true_iff. split; split.
  - intros H. split.
    + intros k s Hk. by specialize (H k _ Hk).
    + intros k Hk. by specialize (H k _ Hk).
  - intros [Hs Ht] k [[]|s] Hk; simpl; [by destruct (Ht k)|done|by destruct (Hs k s)].
  - intros H k [[]|s] Hk; specialize (H k _ Hk); simpl in H; congruence.
  - intros H k v Hk. by rewrite (H k v Hk).
Qed.

(** ** Change detection *)

(** C2, as stated, fails: when the update [{a: 1}] to [{a: 1, b: 2}] adds a
    field, the diff of the subscription returns [b], a name the previous
    snapshot does not have. *)
Lemma subscription_diff_counterexample :
  let previous : gmap string JsValue := {[ "a" := JNumber 1%float ]} in
  let current : gmap string JsValue :=
    {[ "a" := JNumber 1%float; "b" := JNumber 2%float ]} in
  ¬ (∀ k, k ∈ propertiesThatChanged current previous
          ↔ differs_from_previous previous current k).
Proof.
  intros previous current H.
  destruct (H "b") as [Hb _].
  assert (Hin : "b" ∈ propertiesThatChanged current previous).
  { apply elem_of_diffKeys. split; [by eexists|]. vm_compute. reflexivity. }
  destruct (Hb Hin) as [[v Hv] _]. vm_compute in Hv. discriminate.
Qed.

(** C2, amended: the diff the subscription uses returns, each once, exactly
    the field names present in the current (new) snapshot whose value there
    is not strictly equal to the corresponding value in the previous
    snapshot. *)
Theorem subscription_diff_spec (newValues oldValues : gmap string JsValue) :
  NoDup (propertiesThatChanged newValues oldValues)
  ∧ ∀ k, k ∈ propertiesThatChanged newValues oldValues
         ↔ is_Some (newValues !! k)
           ∧ strict_ne (get newValues k) (get oldValues k) = true.
Proof.
  unfold propertiesThatChanged. split.
  - apply NoDup_diffKeys.
  - intros k. apply elem_of_diffKeys.
Qed.

(** ** Resolving a trigger *)

Lemma resolve_string (name : string) (st : Store) :
  name ≠ "" →
  resolve (TString name) st = (Normal (name, get (value (values st)) name), st).
Proof.
  intros Hne. unfold resolve, truthy_string.
  by rewrite bool_decide_eq_false_2.
Qed.

Lemma resolve_event (name : string) (v : JsValue) (st : Store) :
  name ≠ "" →
  resolve (TObject (Some (mkTarget (Some name) v))) st
  = (Normal (name, if in_ref name (values st)
                   then get (value (values st)) name else v), st).
Proof.
  intros Hne. unfold resolve, truthy_string. simpl.
  by rewrite bool_decide_eq_false_2.
Qed.

(** C3 fails on the code, at the input of the test of [handleInputBlur] with
    an event: the values map has the key [email], with value [''], and the
    value resolved is [target.value], ['invalid-email'].  Line 41 tests
    [target.name in values], membership in the cell, where [values.value]
    is the map. *)
Theorem resolve_event_skips_values_map :
  let st := mkStore (mockRef {[ "email" := JString "" ]}) ∅ in
  let e := TObject (Some (mkTarget (Some "email") (JString "invalid-email"))) in
  value (values st) !! "email" = Some (JString "")
  ∧ resolve e st = (Normal ("email", JString "invalid-email"), st).
Proof. split; reflexivity. Qed.

(** The other way round: [value] is a member of the cell, so an input of
    that name never falls back to [target.value], even when the values map
    has no such key. *)
Lemma resolve_event_member_of_cell :
  let st := mkStore (mockRef (∅ : gmap string JsValue)) ∅ in
  let e := TObject (Some (mkTarget (Some "value") (JString "typed"))) in
  value (values st) !! "value" = None
  ∧ resolve e st = (Normal ("value", JUndefined), st).
Proof. split; reflexivity. Qed.

(** In general: whatever the values map holds, an event whose name is not a
    member of the cell resolves to [target.value]. *)
Lemma resolve_event_not_member (name : string) (v : JsValue) (st : Store) :
  name ≠ "" → in_ref name (values st) = false →
  resolve (TObject (Some (mkTarget (Some name) v))) st = (Normal (name, v), st).
Proof.
  intros Hne Hin. rewrite resolve_event by done. by rewrite Hin.
Qed.

(** ** Validating one field on a trigger *)

Lemma handleInputBlur_resolved (schema : gmap string ZodType) (e : Trigger)
    (st : Store) (name : string) (v : JsValue) :
  resolve e st = (Normal (name, v), st) →
  handleInputBlur schema e st = validate_resolved schema name v st.
Proof. intros H. unfold handleInputBlur, bind. by rewrite H. Qed.

Lemma validate_resolved_own (schema : gmap string ZodType) (name : string)
    (rule : ZodType) (v : JsValue) (st : Store) :
  name ≠ "" → schema !! name = Some rule →
  validate_resolved schema name v st
  = (Normal (), mkStore (values st)
                        (assign (errors st) name (error_entry (safeParse rule v)))).
Proof.
  intros Hne Hrule. unfold validate_resolved, has_property, get_property, truthy_string.
  rewrite Hrule, bool_decide_eq_false_2 by done. reflexivity.
Qed.

(** A name the schema object neither has nor inherits is skipped. *)
Lemma validate_resolved_unknown (schema : gmap string ZodType) (name : string)
    (v : JsValue) (st : Store) :
  has_property name schema = false →
  validate_resolved schema name v st = (Normal (), st).
Proof.
  intros H. unfold validate_resolved. rewrite H.
  by rewrite andb_false_r.
Qed.

(** C6, as stated, fails for the field whose name is the empty string: the
    trigger [""] is falsy, so [handleInputBlur("")] throws and writes
    nothing. *)
Lemma handleInputBlur_empty_name_counterexample :
  let schema : gmap string ZodType := {[ "" := Examples.string_min_5 ]} in
  let st := mkStore (mockRef {[ "" := JString "John" ]}) ∅ in
  ¬ field_trigger_claim schema "" st.
Proof.
  intros schema st H.
  destruct (H Examples.string_min_5) as (st' & Hrun & _); [reflexivity|].
  vm_compute in Hrun. discriminate.
Qed.

(** C6, amended: for every non-empty field name present in the schema, other
    than [__proto__], [handleInputBlur(name)] completes and sets
    [errors[name]] to the first violation message of the rule, verbatim, when
    the current value of the field fails the rule, and to [false] when it
    passes; nothing else changes. *)
Theorem handleInputBlur_field (schema : gmap string ZodType) (name : string)
    (rule : ZodType) (st : Store) :
  name ≠ "" → name ≠ "__proto__" → schema !! name = Some rule →
  handleInputBlur schema (TString name) st
  = (Normal (),
     mkStore (values st)
             (<[name := match safeParse rule (get (value (values st)) name) with
                        | ParseFailure error => EString (message (first_issue error))
                        | ParseSuccess _ => EBoolean false
                        end]> (errors st))).
Proof.
  intros Hne Hproto Hrule.
  rewrite (handleInputBlur_resolved _ _ _ _ _ (resolve_string name st Hne)).
  rewrite (validate_resolved_own _ _ rule) by done.
  by rewrite assign_ne_proto.
Qed.

Lemma handleInputBlur_field_witness :
  let schema : gmap string ZodType := {[ "name" := Examples.string_min_5 ]} in
  let st := mkStore (mockRef {[ "name" := JString "John" ]}) ∅ in
  "name" ≠ "" ∧ "name" ≠ "__proto__"
  ∧ schema !! "name" = Some Examples.string_min_5
  ∧ handleInputBlur schema (TString "name") st
    = (Normal (),
       mkStore (values st)
               {[ "name" := EString "String must contain at least 5 character(s)" ]}).
Proof.
  intros schema st.
  assert (Hne : "name" ≠ "") by discriminate.
  assert (Hproto : "name" ≠ "__proto__") by discriminate.
  assert (Hrule : schema !! "name" = Some Examples.string_min_5) by reflexivity.
  split; [exact Hne|]. split; [exact Hproto|]. split; [exact Hrule|].
  exact (handleInputBlur_field schema "name" Examples.string_min_5 st
           Hne Hproto Hrule).
Defined.

(** Outside what C6, amended, covers: for a field of the schema named
    [__proto__] the assignment of line 47 reaches the setter every object
    inherits, and as long as the errors map has no own entry of that name
    the call completes without writing anything. *)
Lemma handleInputBlur_proto_field_swallowed (schema : gmap string ZodType)
    (rule : ZodType) (st : Store) :
  schema !! "__proto__" = Some rule → errors st !! "__proto__" = None →
  handleInputBlur schema (TString "__proto__") st = (Normal (), st).
Proof.
  intros Hrule Hnone.
  rewrite (handleInputBlur_resolved _ _ _ _ _
             (resolve_string "__proto__" st ltac:(discriminate))).
  rewrite (validate_resolved_own _ _ rule) by done.
  rewrite assign_setter by done. by destruct st.
Qed.

(** C8 fails on the code: [constructor] is not a field of the schema, but
    every object inherits a member of that name, so the guard of line 45
    lets it through, [schema[name]?.safeParse] is [undefined], and the call
    throws a [TypeError]. *)
Theorem handleInputBlur_inherited_name_throws :
  let schema : gmap string ZodType := {[ "name" := Examples.string_min_5 ]} in
  let st := mkStore (mockRef {[ "name" := JString "John" ]}) ∅ in
  schema !! "constructor" = None
  ∧ handleInputBlur schema (TString "constructor") st = (Throw TypeError, st).
Proof. split; reflexivity. Qed.

(** What does hold: a trigger that resolves to a name the schema object
    neither has nor inherits changes nothing and throws nothing. *)
Lemma handleInputBlur_unknown_name (schema : gmap string ZodType) (e : Trigger)
    (st : Store) (name : string) (v : JsValue) :
  resolve e st = (Normal (name, v), st) →
  schema !! name = None → inherited name = false →
  handleInputBlur schema e st = (Normal (), st).
Proof.
  intros Hres Hown Hinh.
  rewrite (handleInputBlur_resolved _ _ _ _ _ Hres).
  apply validate_resolved_unknown. unfold has_property.
  rewrite Hown, Hinh. rewrite bool_decide_eq_false_2; [done|].
  by intros [? ?].
Qed.

(** The value an event validates is the one typed, not the one bound: with
    [{ name: 'Johnny' }] in the values map, which passes [min(5)], an event
    carrying ['Jo'] records the violation. *)
Lemma handleInputBlur_event_validates_target_value :
  let schema : gmap string ZodType := {[ "name" := Examples.string_min_5 ]} in
  let st := mkStore (mockRef {[ "name" := JString "Johnny" ]}) ∅ in
  handleInputBlur schema (TObject (Some (mkTarget (Some "name") (JString "Jo")))) st
  = (Normal (),
     mkStore (values st)
             {[ "name" := EString "String must contain at least 5 character(s)" ]}).
Proof. reflexivity. Qed.

(** ** Construction *)

(** A fresh instance, in either mode: [errors] is empty and [isValid] reads
    [true]. *)
Lemma useZodFormValidator_fresh
    (z_object : gmap string ZodType → gmap string JsValue
                → SafeParseReturn (gmap string JsValue))
    (shape : gmap string ZodType)
    (parse : gmap string JsValue → SafeParseReturn (gmap string JsValue))
    (options : Options) (st : Store) :
  ∃ instance st',
    useZodFormValidator z_object (ZodObject shape parse) options st
    = (Normal instance, st')
    ∧ errors st' = ∅ ∧ Instance.isValid instance st' = true.
Proof.
  eexists _, _. split; [reflexivity|]. split; [reflexivity|].
  simpl. unfold isValid, Object_values. simpl. by rewrite map_to_list_empty.
Qed.

(** C9: for every schema that is not an instance of [ZodObject], the
    constructor throws its error at once and returns no instance; the store
    is untouched. *)
Theorem useZodFormValidator_rejects_non_object
    (z_object : gmap string ZodType → gmap string JsValue
                → SafeParseReturn (gmap string JsValue))
    (validationSchema : ZodSchema) (options : Options) (st : Store) :
  instanceof_ZodObject validationSchema = false →
  useZodFormValidator z_object validationSchema options st
  = (Throw (Error "validationSchema needs to be Zod schema, use z.object{...}"), st).
Proof.
  intros Hnot. destruct validationSchema as [shape parse|rule].
  - discriminate Hnot.
  - reflexivity.
Qed.

Lemma useZodFormValidator_rejects_non_object_witness :
  instanceof_ZodObject (ZodOther Examples.string_rule) = false
  ∧ useZodFormValidator Examples.z_object (ZodOther Examples.string_rule)
      default_options Examples.empty_store
    = (Throw (Error "validationSchema needs to be Zod schema, use z.object{...}"),
       Examples.empty_store).
Proof.
  split; [reflexivity|].
  exact (useZodFormValidator_rejects_non_object Examples.z_object
           (ZodOther Examples.string_rule) default_options Examples.empty_store
           eq_refl).
Defined.

(** ** Loops that write error entries *)

Section Writes.

Context {A : Type} (key : A → string) (entry : A → ErrorValue).

Lemma for_of_set_error (l : list A) (st : Store) :
  for_of l (λ x, set_error (key x) (entry x)) st
  = (Normal (), mkStore (values st) (written key entry l (errors st))).
Proof.
  revert st. induction l as [|x l IH]; intros st; simpl.
  - by destruct st.
  - unfold bind. simpl. by rewrite IH.
Qed.

Lemma written_present (l : list A) (errs : gmap string ErrorValue) (k : string) :
  is_Some (errs !! k) → is_Some (written key entry l errs !! k).
Proof.
  revert errs. induction l as [|x l IH]; intros errs H; simpl; [done|].
  by apply IH, assign_is_Some.
Qed.

Lemma written_key (l : list A) (errs : gmap string ErrorValue) (x : A) :
  x ∈ l → key x ≠ "__proto__" → is_Some (written key entry l errs !! key x).
Proof.
  revert errs. induction l as [|y l IH]; intros errs Hx Hkey; simpl.
  - by apply elem_of_nil in Hx.
  - apply elem_of_cons in Hx as [->|Hx]; [|by apply IH].
    apply written_present. rewrite assign_ne_proto by done.
    rewrite lookup_insert_eq. by eexists.
Qed.

Lemma written_entries (P : ErrorValue → Prop) (l : list A)
    (errs : gmap string ErrorValue) :
  (∀ k v, errs !! k = Some v → P v) → (∀ x, x ∈ l → P (entry x)) →
  ∀ k v, written key entry l errs !! k = Some v → P v.
Proof.
  revert errs. induction l as [|y l IH]; intros errs Herrs Hl; simpl; [done|].
  apply IH.
  - intros k v. destruct (assign_cases errs (key y) (entry y)) as [[-> _]|[-> _]].
    + apply Herrs.
    + rewrite lookup_insert. case_decide; simpl.
      * intros [= <-]. apply Hl, list_elem_of_here.
      * apply Herrs.
  - intros x Hx. by apply Hl, list_elem_of_further.
Qed.

(** The setter swallows every write under [__proto__] as long as the map has
    no own entry of that name. *)
Lemma written_proto (l : list A) (errs : gmap string ErrorValue) :
  errs !! "__proto__" = None → written key entry l errs !! "__proto__" = None.
Proof.
  revert errs. induction l as [|y l IH]; intros errs Hnone; simpl; [done|].
  apply IH. destruct (decide (key y = "__proto__")) as [Hy|Hy].
  - rewrite Hy. by rewrite assign_setter.
  - by rewrite lookup_assign_ne.
Qed.

End Writes.

(** When the entry written depends on the key alone, the map read back is
    the old one overridden on the keys of the list. *)
Lemma written_lookup (entry : string → ErrorValue) (l : list string)
    (errs : gmap string ErrorValue) (k : string) :
  k ≠ "__proto__" →
  written id entry l errs !! k
  = if decide (k ∈ l) then Some (entry k) else errs !! k.
Proof.
  intros Hproto. revert errs. induction l as [|y l IH]; intros errs; simpl.
  - destruct (decide (k ∈ [])) as [H|H]; [by apply elem_of_nil in H|done].
  - rewrite IH. unfold id. destruct (decide (k ∈ l)) as [Hin|Hnin].
    + rewrite decide_True by (by apply list_elem_of_further). done.
    + destruct (decide (k = y)) as [->|Hne].
      * rewrite decide_True by apply list_elem_of_here.
        by rewrite assign_ne_proto, lookup_insert_eq.
      * rewrite decide_False.
        -- by rewrite lookup_assign_ne.
        -- intros [Heq|Hin]%elem_of_cons; [by apply Hne|by apply Hnin].
Qed.

Lemma written_other (entry : string → ErrorValue) (l : list string)
    (errs : gmap string ErrorValue) (k : string) :
  k ∉ l → written id entry l errs !! k = errs !! k.
Proof.
  revert errs. induction l as [|y l IH]; intros errs Hk; simpl; [done|].
  rewrite IH by (intros ?; apply Hk; by right).
  unfold id. apply lookup_assign_ne. intros ->. apply Hk. by left.
Qed.

(** ** Validating the whole form *)

Lemma validate_run
    (parse : gmap string JsValue → SafeParseReturn (gmap string JsValue))
    (st : Store) :
  validate parse st
  = match parse (value (values st)) with
    | ParseFailure error =>
        (Normal (ValidateResult.mk
                   (findIndex (λ v, is_string v || truthy v)
                              (Object_values (issue_entries error)) =? -1)
                   ∅),
         mkStore (values st) (issue_entries error))
    | ParseSuccess data =>
        (Normal (ValidateResult.mk true data), mkStore (values st) ∅)
    end.
Proof.
  unfold validate, bind, write_errors, read_values, read_errors, ret.
  cbn -[for_of].
  destruct (parse (value (values st))) as [data|error]; cbn -[for_of].
  - unfold Object_values. by rewrite map_to_list_empty.
  - by rewrite for_of_set_error.
Qed.

Lemma issue_entries_strings (error : ZodError) (k : string) (v : ErrorValue) :
  issue_entries error !! k = Some v → is_string v = true.
Proof.
  apply (written_entries _ _ (λ v, is_string v = true)).
  - intros k' v'. by rewrite lookup_empty.
  - done.
Qed.

Lemma issue_entries_proto (error : ZodError) :
  issue_entries error !! "__proto__" = None.
Proof. apply written_proto, lookup_empty. Qed.

Lemma issue_entries_inhabited (error : ZodError) (issue : ZodIssue) :
  issue ∈ issues error → path_join (path issue) ≠ "__proto__" →
  ∃ k s, issue_entries error !! k = Some (EString s).
Proof.
  intros Hin Hpath.
  destruct (written_key (λ issue, path_join (path issue))
              (λ issue, EString (message issue)) (issues error) ∅
              issue Hin Hpath) as [v Hv].
  exists (path_join (path issue)).
  pose proof (issue_entries_strings error _ v Hv) as Hs.
  destruct v as [b|s]; [discriminate|]. by exists s.
Qed.

Lemma issue_entries_swallowed (error : ZodError) :
  only_proto_paths error = true → issue_entries error = ∅.
Proof.
  unfold only_proto_paths, issue_entries.
  generalize (issues error). intros l Hall.
  induction l as [|issue l IH]; simpl in *; [done|].
  apply andb_true_iff in Hall as [Hissue Hall].
  apply bool_decide_eq_true in Hissue. rewrite Hissue.
  rewrite assign_setter by apply lookup_empty. by apply IH.
Qed.

Lemma forallb_false_witness {A : Type} (p : A → bool) (l : list A) :
  forallb p l = false → ∃ x, x ∈ l ∧ p x = false.
Proof.
  induction l as [|y l IH]; simpl; [discriminate|].
  destruct (p y) eqn:Hy; simpl.
  - intros (x & Hx & Hpx)%IH. exists x. split; [by right|done].
  - intros _. exists y. split; [by left|done].
Qed.

(** X18: on values that satisfy the schema [validate()] returns
    [isValid == true] and the output of the parse; on a failed parse it
    returns [sanitizedValues == {}], and [isValid == false] unless every
    issue has the dotted path [__proto__], in which case no entry is written
    and [isValid] is [true]. *)
Theorem validate_result_exact
    (parse : gmap string JsValue → SafeParseReturn (gmap string JsValue))
    (st : Store) :
  (validate parse st).1
  = Normal match parse (value (values st)) with
           | ParseFailure error => ValidateResult.mk (only_proto_paths error) ∅
           | ParseSuccess data => ValidateResult.mk true data
           end.
Proof.
  rewrite validate_run.
  destruct (parse (value (values st))) as [data|error]; simpl; [done|].
  do 2 f_equal. destruct (only_proto_paths error) eqn:Hall.
  - rewrite issue_entries_swallowed by done.
    unfold Object_values. by rewrite map_to_list_empty.
  - apply Z.eqb_neq. intros Hnone.
    apply forallb_false_witness in Hall as (issue & Hin & Hpath).
    apply bool_decide_eq_false in Hpath.
    destruct (issue_entries_inhabited error issue Hin Hpath) as (k & s & Hk).
    assert (Hs : EString s ∈ Object_values (issue_entries error)).
    { apply elem_of_Object_values. by exists k. }
    by specialize (proj1 (findIndex_none _ _) Hnone _ Hs).
Qed.

(** C5 fails on the code: for the schema [z.object({ ['__proto__']:
    z.string() })] and the values [{}] the parse fails with one issue, of
    path [['__proto__']]; the assignment of line 66 under that name is
    swallowed by the setter every object inherits, the errors map stays
    empty, and [validate()] returns [isValid == true]. *)
Theorem validate_swallowed_issue_reports_valid :
  let shape : gmap string ZodType := {[ "__proto__" := Examples.string_rule ]} in
  let st := mkStore (mockRef (∅ : gmap string JsValue)) ∅ in
  Examples.z_object shape (value (values st))
  = ParseFailure (mkError (mkIssue [PKey "__proto__"] "Expected string") [])
  ∧ validate (Examples.z_object shape) st
    = (Normal (ValidateResult.mk true ∅), st).
Proof. split; vm_compute; reflexivity. Qed.

(** C10: the [isValid] that [validate()] returns is the value the derived
    cell [isValid] has right after the call, although the one tests the
    truthiness of an entry and the other tests [value === true]. *)
Theorem validate_isValid_agrees
    (parse : gmap string JsValue → SafeParseReturn (gmap string JsValue))
    (st : Store) :
  ∃ r st', validate parse st = (Normal r, st')
           ∧ ValidateResult.isValid r = isValid st'.
Proof.
  rewrite validate_run.
  destruct (parse (value (values st))) as [data|error]; eexists _, _;
    (split; [reflexivity|]); simpl.
  - symmetry. unfold isValid, Object_values. simpl. by rewrite map_to_list_empty.
  - unfold isValid. simpl. f_equal. apply findIndex_ext.
    by intros [b|s].
Qed.

(** ** Sanitized values *)

Lemma getSanitizedValues_run
    (z_object : gmap string ZodType → gmap string JsValue
                → SafeParseReturn (gmap string JsValue))
    (schema : gmap string ZodType) (st : Store) :
  getSanitizedValues z_object schema st
  = (Normal match z_object schema (value (values st)) with
            | ParseSuccess data => data
            | ParseFailure _ => ∅
            end, st).
Proof.
  unfold getSanitizedValues, bind, read_values, ret. simpl.
  by destruct (z_object schema (value (values st))).
Qed.

(** C7, as stated, fails for a schema that keeps the keys its shape does not
    list, [z.object({ name: z.string() }).passthrough()]: on
    [{ name: 'John Doe', nickname: 'Jo' }], [validate()] returns both fields,
    while [getSanitizedValues()], which parses with [z.object(shape)]
    instead, returns [name] alone. *)
Lemma getSanitizedValues_passthrough_counterexample :
  let shape : gmap string ZodType := {[ "name" := Examples.string_rule ]} in
  let st := mkStore (mockRef {[ "name" := JString "John Doe";
                                "nickname" := JString "Jo" ]}) ∅ in
  ¬ sanitized_claim Examples.z_object
      (Examples.object_parse Examples.passthrough shape) shape st.
Proof.
  intros shape st H.
  destruct (H (value (values st))) as (r & st' & Hrun & Hsan).
  { vm_compute. reflexivity. }
  rewrite validate_run in Hrun.
  replace (Examples.object_parse Examples.passthrough shape (value (values st)))
    with (ParseSuccess (value (values st))) in Hrun by (vm_compute; reflexivity).
  injection Hrun as <- <-.
  rewrite getSanitizedValues_run in Hsan. simpl in Hsan.
  apply (f_equal (λ c : Completion (gmap string JsValue),
                    match c with Normal o => o !! "nickname" | Throw _ => None end))
    in Hsan.
  vm_compute in Hsan. discriminate.
Qed.

(** C7, amended: for every values map that satisfies the schema and on which
    the parse of the re-wrapped shape, [z.object(shape)], gives what the
    schema's own parse gives (as it does for a schema built by [z.object]
    alone), [getSanitizedValues()] returns the same object as the
    [sanitizedValues] of [validate()], the coerced output of the schema. *)
Theorem getSanitizedValues_agrees_with_validate
    (z_object : gmap string ZodType → gmap string JsValue
                → SafeParseReturn (gmap string JsValue))
    (parse : gmap string JsValue → SafeParseReturn (gmap string JsValue))
    (schema : gmap string ZodType) (st : Store) (data : gmap string JsValue) :
  parse (value (values st)) = ParseSuccess data →
  z_object schema (value (values st)) = parse (value (values st)) →
  ∃ r st', validate parse st = (Normal r, st')
    ∧ ValidateResult.sanitizedValues r = data
    ∧ (getSanitizedValues z_object schema st).1 = Normal data
    ∧ (getSanitizedValues z_object schema st').1 = Normal data.
Proof.
  intros Hparse Hsame. rewrite validate_run, Hparse.
  eexists _, _. split; [reflexivity|]. split; [reflexivity|].
  rewrite !getSanitizedValues_run. simpl. by rewrite Hsame, Hparse.
Qed.

Lemma getSanitizedValues_agrees_with_validate_witness :
  let shape : gmap string ZodType := {[ "name" := Examples.string_rule ]} in
  let current : gmap string JsValue := {[ "name" := JString "John Doe" ]} in
  let st := mkStore (mockRef current) ∅ in
  Examples.z_object shape current = ParseSuccess current
  ∧ ∃ r st', validate (Examples.z_object shape) st = (Normal r, st')
      ∧ ValidateResult.sanitizedValues r = current
      ∧ (getSanitizedValues Examples.z_object shape st).1 = Normal current
      ∧ (getSanitizedValues Examples.z_object shape st').1 = Normal current.
Proof.
  intros shape current st.
  assert (Hparse : Examples.z_object shape (value (values st)) = ParseSuccess current)
    by (vm_compute; reflexivity).
  split; [exact Hparse|].
  exact (getSanitizedValues_agrees_with_validate
           Examples.z_object (Examples.z_object shape) shape st current
           Hparse eq_refl).
Defined.

(** ** Validation on change *)

Lemma validateProperty_own (schema : gmap string ZodType) (name : string)
    (rule : ZodType) (v : JsValue) (st : Store) :
  schema !! name = Some rule →
  validateProperty schema name v st
  = (Normal (get_property (assign (errors st) name (error_entry (safeParse rule v)))
                          name),
     mkStore (values st) (assign (errors st) name (error_entry (safeParse rule v)))).
Proof.
  intros Hrule. unfold validateProperty. unfold get_property at 1. rewrite Hrule.
  reflexivity.
Qed.

Lemma for_of_validateProperty (schema : gmap string ZodType)
    (newValues : gmap string JsValue) (l : list string) (st : Store) :
  (∀ k, k ∈ l → is_Some (schema !! k)) →
  for_of l (λ p, bind (validateProperty schema p (get newValues p)) (λ _, ret ())) st
  = (Normal (),
     mkStore (values st) (written id (rule_entry schema newValues) l (errors st))).
Proof.
  revert st. induction l as [|k l IH]; intros st Hl; simpl.
  - by destruct st.
  - destruct (Hl k (list_elem_of_here _ _)) as [rule Hrule].
    unfold bind at 1 2. rewrite (validateProperty_own _ _ rule) by done.
    unfold ret at 1. rewrite IH.
    + assert (He : rule_entry schema newValues k
                   = error_entry (safeParse rule (get newValues k)))
        by (unfold rule_entry; by rewrite Hrule).
      simpl. by rewrite He.
    + intros k' Hk'. by apply Hl, list_elem_of_further.
Qed.

(** In [onBlur] mode nothing is subscribed: an update is not validated. *)
Lemma notify_onBlur (schema : gmap string ZodType)
    (newValues oldValues : gmap string JsValue) (st : Store) :
  notify schema (mkOptions onBlur) newValues oldValues st = (Normal (), st).
Proof. reflexivity. Qed.

Lemma watch_callback_below_threshold (schema : gmap string ZodType)
    (newValues oldValues : gmap string JsValue) (st : Store) :
  (length (propertiesThatChanged newValues oldValues) ≤ 1)%nat →
  watch_callback schema newValues oldValues st = (Normal (), st).
Proof.
  intros Hlen. unfold watch_callback.
  by destruct (Nat.ltb_spec 1 (length (propertiesThatChanged newValues oldValues)));
    [lia|].
Qed.

Lemma propertiesThatChanged_changed (newValues oldValues : gmap string JsValue) :
  (length (propertiesThatChanged newValues oldValues)
   ≤ size (changed_fields oldValues newValues))%nat.
Proof.
  unfold propertiesThatChanged.
  rewrite <- (size_list_to_set (C := gset string)) by apply NoDup_diffKeys.
  apply subseteq_size. intros k Hk.
  apply elem_of_list_to_set, elem_of_diffKeys in Hk as [Hown Hne].
  apply elem_of_filter. split; [done|].
  apply elem_of_union. right. by apply elem_of_dom.
Qed.

(** C4, as stated, fails: in the update from
    [{ name: 'John', email: 'a@b.c' }] to [{ name: 'Johnny' }] two fields
    change, [name] and [email], but only the keys of the new snapshot are
    compared, one differs, and nothing is validated: [errors.name] stays
    unset. *)
Lemma onChange_removed_field_counterexample :
  let schema : gmap string ZodType :=
    {[ "name" := Examples.string_min_5; "email" := Examples.string_rule ]} in
  let oldValues : gmap string JsValue :=
    {[ "name" := JString "John"; "email" := JString "a@b.c" ]} in
  let newValues : gmap string JsValue := {[ "name" := JString "Johnny" ]} in
  let st := mkStore (mockRef newValues) ∅ in
  ¬ onChange_claim schema st newValues oldValues.
Proof.
  intros schema oldValues newValues st [_ H].
  destruct H as (st' & Hrun & Hall).
  { vm_compute. lia. }
  assert (Hst : notify schema (mkOptions onChange) newValues oldValues st
                = (Normal (), st)) by (vm_compute; reflexivity).
  rewrite Hst in Hrun.
  destruct (Hall "name") as (rule & _ & Hentry).
  { apply elem_of_filter. split; [vm_compute; reflexivity|].
    apply elem_of_union. left. apply elem_of_dom. by eexists. }
  apply (f_equal snd) in Hrun. simpl in Hrun. subst st'.
  vm_compute in Hentry. discriminate.
Qed.

(** Outside what C4, amended, covers: [validateProperty] has no guard for a
    field without a rule, so an update that changes two such fields throws at
    the first and writes nothing. *)
Lemma watch_callback_without_rule_throws :
  let schema : gmap string ZodType := {[ "name" := Examples.string_min_5 ]} in
  let newValues : gmap string JsValue :=
    {[ "nickname" := JString "Jo"; "zip" := JString "1000" ]} in
  let st := mkStore (mockRef newValues) ∅ in
  watch_callback schema newValues ∅ st = (Throw TypeError, st).
Proof. vm_compute. reflexivity. Qed.

(** C4, amended: under [onChange] mode, an update in which exactly one
    field's value changed writes no errors entry; an update in which two or
    more fields of the new snapshot differ from their previous value, each
    of them with a rule in the schema, runs each of these fields through its
    rule and sets the errors entry of each of them, other than [__proto__],
    to the first violation message or to [false], leaving the entries of
    the fields that did not change as they were. *)
Theorem onChange_validation (schema : gmap string ZodType) (st : Store)
    (newValues oldValues : gmap string JsValue) :
  let changed := propertiesThatChanged newValues oldValues in
  let run := notify schema (mkOptions onChange) newValues oldValues st in
  (size (changed_fields oldValues newValues) = 1%nat → run = (Normal (), st))
  ∧ ((2 ≤ length changed)%nat →
     (∀ k, k ∈ changed → is_Some (schema !! k)) →
     ∃ st', run = (Normal (), st')
       ∧ values st' = values st
       ∧ (∀ k rule, k ∈ changed → k ≠ "__proto__" → schema !! k = Some rule →
            errors st' !! k
            = Some (match safeParse rule (get newValues k) with
                    | ParseFailure error => EString (message (first_issue error))
                    | ParseSuccess _ => EBoolean false
                    end))
       ∧ (∀ k, k ∉ changed → errors st' !! k = errors st !! k)).
Proof.
  intros changed run. subst run. unfold notify. simpl. split.
  - intros Hone. apply watch_callback_below_threshold.
    pose proof (propertiesThatChanged_changed newValues oldValues). lia.
  - intros Hlen Hrules. unfold watch_callback. fold changed.
    destruct (Nat.ltb_spec 1 (length changed)); [|lia].
    rewrite for_of_validateProperty by done.
    eexists. split; [reflexivity|]. split; [done|]. simpl. split.
    + intros k rule Hk Hproto Hrule. rewrite written_lookup, decide_True by done.
      unfold rule_entry. by rewrite Hrule.
    + intros k Hk. by rewrite written_other.
Qed.

Lemma onChange_validation_witness :
  let schema : gmap string ZodType :=
    {[ "name" := Examples.string_min_5; "email" := Examples.string_rule ]} in
  let one_old : gmap string JsValue := {[ "name" := JString "John" ]} in
  let one_new : gmap string JsValue := {[ "name" := JString "Johnny" ]} in
  let two_old : gmap string JsValue := ∅ in
  let two_new : gmap string JsValue :=
    {[ "name" := JString "John"; "email" := JString "a@b.c" ]} in
  (size (changed_fields one_old one_new) = 1%nat
   ∧ notify schema (mkOptions onChange) one_new one_old (mkStore (mockRef one_new) ∅)
     = (Normal (), mkStore (mockRef one_new) ∅))
  ∧ ((2 ≤ length (propertiesThatChanged two_new two_old))%nat
     ∧ (∀ k, k ∈ propertiesThatChanged two_new two_old → is_Some (schema !! k))
     ∧ ∃ st', notify schema (mkOptions onChange) two_new two_old
                     (mkStore (mockRef two_new) ∅) = (Normal (), st')
         ∧ errors st' !! "name"
           = Some (EString "String must contain at least 5 character(s)")
         ∧ errors st' !! "email" = Some (EBoolean false)).
Proof.
  intros schema one_old one_new two_old two_new. split.
  - assert (Hone : size (changed_fields one_old one_new) = 1%nat)
      by (vm_compute; reflexivity).
    split; [exact Hone|].
    exact (proj1 (onChange_validation schema (mkStore (mockRef one_new) ∅)
                    one_new one_old) Hone).
  - assert (Hlen : (2 ≤ length (propertiesThatChanged two_new two_old))%nat)
      by (vm_compute; lia).
    assert (Hrules : ∀ k, k ∈ propertiesThatChanged two_new two_old
                          → is_Some (schema !! k)).
    { intros k Hk. apply elem_of_diffKeys in Hk as [[v Hv] _].
      subst two_new schema.
      apply lookup_insert_Some in Hv as [[<- _]|[_ Hv]]; [by eexists|].
      apply lookup_singleton_Some in Hv as [<- _]. by eexists. }
    split; [exact Hlen|]. split; [exact Hrules|].
    destruct (proj2 (onChange_validation schema (mkStore (mockRef two_new) ∅)
                       two_new two_old) Hlen Hrules)
      as (st' & Hrun & _ & Hset & _).
    exists st'. split; [exact Hrun|]. split.
    + apply (Hset "name" Examples.string_min_5); [|discriminate|reflexivity].
      apply elem_of_diffKeys. split; [by eexists|]. vm_compute. reflexivity.
    + apply (Hset "email" Examples.string_rule); [|discriminate|reflexivity].
      apply elem_of_diffKeys. split; [by eexists|]. vm_compute. reflexivity.
Defined.

(** * Further properties of the composable *)

Lemma entry_false_iff (v : ErrorValue) :
  is_string v || is_true v = false ↔ v = EBoolean false.
Proof. destruct v as [[]|s]; simpl; split; congruence. Qed.

Lemma isValid_insert (cell : Ref (gmap string JsValue))
    (errs : gmap string ErrorValue) (name : string) (v : ErrorValue) :
  isValid (mkStore cell (<[name := v]> errs)) = true
  ↔ v = EBoolean false
    ∧ ∀ k w, k ≠ name → errs !! k = Some w → w = EBoolean false.
Proof.
  rewrite isValid_true_iff. simpl. split.
  - intros H. split.
    + apply entry_false_iff, (H name). by rewrite lookup_insert_eq.
    + intros k w Hne Hk. apply entry_false_iff, (H k).
      by rewrite lookup_insert_ne.
  - intros [-> Hothers] k w. rewrite lookup_insert. case_decide; simpl.
    + by intros [= <-].
    + intros Hk. apply entry_false_iff. apply (Hothers k); [congruence|done].
Qed.

Lemma validate_resolved_cases (schema : gmap string ZodType) (name : string)
    (v : JsValue) (st : Store) :
  validate_resolved schema name v st
  = if bool_decide (name = "") then (Normal (), st) else
      match schema !! name with
      | Some rule =>
          (Normal (), mkStore (values st)
                              (assign (errors st) name (error_entry (safeParse rule v))))
      | None => if inherited name then (Throw TypeError, st) else (Normal (), st)
      end.
Proof.
  unfold validate_resolved, has_property, get_property, truthy_string.
  case_bool_decide; simpl; [done|].
  destruct (schema !! name) as [rule|]; simpl; [done|].
  by destruct (inherited name).
Qed.

Lemma resolve_store (e : Trigger) (st : Store) : (resolve e st).2 = st.
Proof.
  destruct e as [s|[[[n|] v]|]|]; simpl; try done.
  - unfold truthy_string. by case_bool_decide.
  - unfold truthy_string. by case_bool_decide.
Qed.

Lemma resolve_values (e : Trigger) (st st' : Store) :
  values st = values st' → (resolve e st).1 = (resolve e st').1.
Proof.
  intros Hv. destruct e as [s|[[[n|] v]|]|]; simpl; try done.
  - unfold truthy_string. case_bool_decide; simpl; [done|].
    unfold bind, read_values, ret. simpl. by rewrite Hv.
  - unfold truthy_string. case_bool_decide; simpl; [done|].
    unfold ret. simpl. by rewrite Hv.
Qed.

Lemma handleInputBlur_run (schema : gmap string ZodType) (e : Trigger) (st : Store) :
  handleInputBlur schema e st
  = match (resolve e st).1 with
    | Normal r => validate_resolved schema r.1 r.2 st
    | Throw x => (Throw x, st)
    end.
Proof.
  unfold handleInputBlur, bind.
  pose proof (resolve_store e st) as Hst.
  destruct (resolve e st) as [[r|x] st']; simpl in *; by subst.
Qed.

(** X1: [overrideFieldError(name, v)] never throws and touches neither the
    values nor the entry of another name.  For a name other than [__proto__]
    it sets [errors[name]] to [v], whether or not the schema knows [name],
    and afterwards [isValid] reads [true] exactly when [v] is [false] and
    every other entry is [false].  Under the name [__proto__], on an errors
    map without an own entry of that name, it writes nothing. *)
Theorem overrideFieldError_sets (name : string) (errorValue : ErrorValue) (st : Store) :
  ∃ st', overrideFieldError name errorValue st = (Normal (), st')
    ∧ values st' = values st
    ∧ (∀ k, k ≠ name → errors st' !! k = errors st !! k)
    ∧ (name ≠ "__proto__" →
       errors st' !! name = Some errorValue
       ∧ (isValid st' = true
          ↔ errorValue = EBoolean false
            ∧ ∀ k w, k ≠ name → errors st !! k = Some w → w = EBoolean false))
    ∧ (name = "__proto__" → errors st !! name = None → st' = st).
Proof.
  eexists. split; [reflexivity|]. simpl. split; [done|]. split; [|split].
  - intros k Hk. by rewrite lookup_assign_ne.
  - intros Hproto. rewrite assign_ne_proto by done. split.
    + by rewrite lookup_insert_eq.
    + apply isValid_insert.
  - intros -> Hnone. rewrite assign_setter by done. by destruct st.
Qed.

Lemma overrideFieldError_sets_witness :
  let st := mkStore (mockRef (∅ : gmap string JsValue))
                    {[ "name" := EBoolean false ]} in
  ("customField" ≠ "__proto__"
   ∧ errors (overrideFieldError "customField" (EString "Custom error message") st).2
       !! "customField" = Some (EString "Custom error message")
   ∧ isValid (overrideFieldError "customField" (EString "Custom error message") st).2
     = false)
  ∧ (errors st !! "__proto__" = None
     ∧ (overrideFieldError "__proto__" (EString "taken") st).2 = st).
Proof.
  intros st. split.
  - assert (Hne : "customField" ≠ "__proto__") by discriminate.
    split; [exact Hne|].
    destruct (overrideFieldError_sets "customField" (EString "Custom error message") st)
      as (st' & Hrun & _ & _ & Hset & _).
    rewrite Hrun. cbn [snd].
    destruct (Hset Hne) as [Hentry Hvalid]. split; [exact Hentry|].
    destruct (isValid st') eqn:Hv; [|reflexivity].
    destruct (proj1 Hvalid eq_refl) as [Hfalse _]. discriminate Hfalse.
  - assert (Hnone : errors st !! "__proto__" = None) by reflexivity.
    split; [exact Hnone|].
    destruct (overrideFieldError_sets "__proto__" (EString "taken") st)
      as (st' & Hrun & _ & _ & _ & Hlost).
    rewrite Hrun. cbn [snd].
    exact (Hlost eq_refl Hnone).
Defined.

(** X2: [clear()] never throws and, whatever the errors map held, leaves it
    empty, so that [isValid] reads [true]; the values are untouched. *)
Theorem clear_resets (st : Store) :
  ∃ st', clear st = (Normal (), st')
    ∧ values st' = values st ∧ errors st' = ∅ ∧ isValid st' = true.
Proof.
  eexists. split; [reflexivity|]. split; [done|]. split; [done|].
  apply isValid_true_iff. intros k v. simpl. by rewrite lookup_empty.
Qed.

(** Closes [Throw x = Throw y ↔ cases] when the left side is absurd and no
    case fits the trigger at hand. *)
Ltac neither :=
  split;
  [ discriminate
  | let H := fresh in
    intros H;
    repeat match type of H with
           | _ ∨ _ => destruct H as [H|H]
           | ∃ _, _ => destruct H as [? H]
           | _ ∧ _ => let H' := fresh in destruct H as [H' H]; try discriminate H'
           end;
    try discriminate H ].

(** X3: [handleInputBlur] throws 'got wrong event type' exactly for the
    empty string, an object without a truthy [target] and any other
    non-string argument; it throws 'must be used with an input that has a
    name attribute' exactly for an event whose target has no name or an
    empty one; and whenever it throws, whatever the error, the store is as
    it was. *)
Theorem handleInputBlur_rejects (schema : gmap string ZodType) (e : Trigger) (st : Store) :
  ((handleInputBlur schema e st).1 = Throw wrong_event_type
   ↔ e = TString "" ∨ e = TObject None ∨ e = TOther)
  ∧ ((handleInputBlur schema e st).1 = Throw missing_name_attribute
     ↔ ∃ target, e = TObject (Some target)
                 ∧ (target_name target = None ∨ target_name target = Some ""))
  ∧ (∀ x, (handleInputBlur schema e st).1 = Throw x
          → (handleInputBlur schema e st).2 = st).
Proof.
  rewrite handleInputBlur_run.
  destruct e as [s|[[[n|] v]|]|]; simpl.
  - unfold truthy_string. case_bool_decide as Hs; simpl.
    + subst s. split; [|split]; [|neither|done].
      split; [by left|done].
    + rewrite validate_resolved_cases, bool_decide_eq_false_2 by done.
      assert (Hnot : ¬ (TString s = TString "" ∨ TString s = TObject None
                        ∨ TString s = TOther)).
      { intros [[= ?]|[?|?]]; done. }
      destruct (schema !! s); [|destruct (inherited s)]; simpl;
        (split; [|split]; [split; [discriminate|done]|neither|done || discriminate]).
  - unfold truthy_string. case_bool_decide as Hn; simpl.
    + subst n. split; [|split]; [neither| |done].
      split; [|done]. intros _. eexists. split; [done|]. by right.
    + rewrite validate_resolved_cases, bool_decide_eq_false_2 by done.
      assert (Hnot : ¬ ∃ target, TObject (Some (mkTarget (Some n) v)) = TObject (Some target)
                        ∧ (target_name target = None ∨ target_name target = Some "")).
      { intros (t & [= <-] & [?|[= ?]]); done. }
      destruct (schema !! n); [|destruct (inherited n)]; simpl;
        (split; [|split]; [neither|split; [discriminate|done]|done || discriminate]).
  - split; [|split]; [neither| |done].
    split; [|done]. intros _. eexists. split; [done|]. by left.
  - split; [|split]; [|neither|done].
    split; [|done]. intros _. right. by left.
  - split; [|split]; [|neither|done].
    split; [|done]. intros _. right. by right.
Qed.

Lemma error_entry_not_true {T : Type} (result : SafeParseReturn T) :
  error_entry result ≠ EBoolean true.
Proof. by destruct result. Qed.

(** X4: [handleInputBlur] never touches the values and writes at most one
    entry: either the errors map is unchanged, or the call completed and set
    the entry of one non-empty name that is a key of the schema, to a value
    that is not boolean [true]. *)
Theorem handleInputBlur_frame (schema : gmap string ZodType) (e : Trigger) (st : Store) :
  let st' := (handleInputBlur schema e st).2 in
  values st' = values st
  ∧ (errors st' = errors st
     ∨ ∃ name v, name ≠ "" ∧ is_Some (schema !! name) ∧ v ≠ EBoolean true
                 ∧ (handleInputBlur schema e st).1 = Normal ()
                 ∧ errors st' = <[name := v]> (errors st)).
Proof.
  simpl. rewrite handleInputBlur_run.
  destruct ((resolve e st).1) as [[name v]|x]; simpl; [|by split; [|left]].
  rewrite validate_resolved_cases. case_bool_decide as Hname; [by split; [|left]|].
  destruct (schema !! name) as [rule|] eqn:Hrule.
  - simpl. split; [done|].
    destruct (assign_cases (errors st) name (error_entry (safeParse rule v)))
      as [[-> _]|[-> _]]; [by left|].
    right. exists name, (error_entry (safeParse rule v)).
    split; [done|]. split; [by eexists|]. split; [apply error_entry_not_true|done].
  - by destruct (inherited name); (split; [|left]).
Qed.

(** X5: for an event whose target names a non-empty field of the schema,
    other than [__proto__], [handleInputBlur] validates [values.value[name]]
    when [name] is a member of the cell [values] and [target.value]
    otherwise, and sets [errors[name]] to the first violation message or to
    [false]. *)
Theorem handleInputBlur_event_field (schema : gmap string ZodType) (name : string)
    (rule : ZodType) (v : JsValue) (st : Store) :
  name ≠ "" → name ≠ "__proto__" → schema !! name = Some rule →
  handleInputBlur schema (TObject (Some (mkTarget (Some name) v))) st
  = (Normal (),
     mkStore (values st)
       (<[name := match safeParse rule (if in_ref name (values st)
                                        then get (value (values st)) name
                                        else v) with
                  | ParseFailure error => EString (message (first_issue error))
                  | ParseSuccess _ => EBoolean false
                  end]> (errors st))).
Proof.
  intros Hne Hproto Hrule.
  rewrite (handleInputBlur_resolved _ _ _ _ _ (resolve_event name v st Hne)).
  rewrite (validate_resolved_own _ _ rule) by done.
  by rewrite assign_ne_proto.
Qed.

Lemma handleInputBlur_event_field_witness :
  let schema : gmap string ZodType := {[ "value" := Examples.string_min_5 ]} in
  let st := mkStore (mockRef {[ "value" := JString "Johnny" ]}) ∅ in
  "value" ≠ "" ∧ "value" ≠ "__proto__"
  ∧ schema !! "value" = Some Examples.string_min_5
  ∧ handleInputBlur schema (TObject (Some (mkTarget (Some "value") (JString "Jo")))) st
    = (Normal (), mkStore (values st) {[ "value" := EBoolean false ]}).
Proof.
  intros schema st.
  assert (Hne : "value" ≠ "") by discriminate.
  assert (Hproto : "value" ≠ "__proto__") by discriminate.
  assert (Hrule : schema !! "value" = Some Examples.string_min_5) by reflexivity.
  split; [exact Hne|]. split; [exact Hproto|]. split; [exact Hrule|].
  exact (handleInputBlur_event_field schema "value" Examples.string_min_5
           (JString "Jo") st Hne Hproto Hrule).
Defined.

(** X6: when a trigger resolves to a name that is not a key of the schema,
    [handleInputBlur] writes nothing; it throws a [TypeError] if the name is
    one every object inherits from [Object.prototype], and completes
    otherwise. *)
Theorem handleInputBlur_not_a_field (schema : gmap string ZodType) (e : Trigger)
    (name : string) (v : JsValue) (st : Store) :
  (resolve e st).1 = Normal (name, v) → schema !! name = None →
  handleInputBlur schema e st
  = (if inherited name then Throw TypeError else Normal (), st).
Proof.
  intros Hres Hnone. rewrite handleInputBlur_run, Hres. simpl.
  rewrite validate_resolved_cases, Hnone.
  case_bool_decide; [|by destruct (inherited name)].
  subst name. reflexivity.
Qed.

Lemma handleInputBlur_not_a_field_witness :
  let schema : gmap string ZodType := {[ "name" := Examples.string_min_5 ]} in
  let st := mkStore (mockRef {[ "name" := JString "John" ]}) ∅ in
  ((resolve (TString "toString") st).1
   = Normal ("toString", JObjectPrototype "toString")
   ∧ schema !! "toString" = None
   ∧ handleInputBlur schema (TString "toString") st = (Throw TypeError, st))
  ∧ ((resolve (TObject (Some (mkTarget (Some "zip") (JString "1000")))) st).1
     = Normal ("zip", JString "1000")
     ∧ schema !! "zip" = None
     ∧ handleInputBlur schema (TObject (Some (mkTarget (Some "zip") (JString "1000")))) st
       = (Normal (), st)).
Proof.
  intros schema st. split.
  - split; [reflexivity|]. split; [reflexivity|].
    exact (handleInputBlur_not_a_field schema (TString "toString") "toString"
             (JObjectPrototype "toString") st eq_refl eq_refl).
  - split; [reflexivity|]. split; [reflexivity|].
    exact (handleInputBlur_not_a_field schema
             (TObject (Some (mkTarget (Some "zip") (JString "1000"))))
             "zip" (JString "1000") st eq_refl eq_refl).
Defined.

(** X7: after [handleInputBlur(name)] on a non-empty field of the schema,
    other than [__proto__], [isValid] reads [true] exactly when the current
    value of the field passes its rule and every other entry of the errors
    map was [false]. *)
Theorem handleInputBlur_then_isValid (schema : gmap string ZodType) (name : string)
    (rule : ZodType) (st : Store) :
  name ≠ "" → name ≠ "__proto__" → schema !! name = Some rule →
  (isValid (handleInputBlur schema (TString name) st).2 = true
   ↔ (∃ data, safeParse rule (get (value (values st)) name) = ParseSuccess data)
     ∧ ∀ k w, k ≠ name → errors st !! k = Some w → w = EBoolean false).
Proof.
  intros Hne Hproto Hrule.
  rewrite (handleInputBlur_resolved _ _ _ _ _ (resolve_string name st Hne)).
  rewrite (validate_resolved_own _ _ rule) by done. simpl.
  rewrite assign_ne_proto by done. rewrite isValid_insert.
  destruct (safeParse rule (get (value (values st)) name)) as [data|error]; simpl.
  - split; [intros [_ H]; split; [by eexists|done]|intros [_ H]; by split].
  - split; [by intros [? _]|by intros [[? ?] _]].
Qed.

Lemma handleInputBlur_then_isValid_witness :
  let schema : gmap string ZodType := {[ "name" := Examples.string_min_5 ]} in
  let st := mkStore (mockRef {[ "name" := JString "John" ]}) ∅ in
  "name" ≠ "" ∧ "name" ≠ "__proto__"
  ∧ schema !! "name" = Some Examples.string_min_5
  ∧ isValid (handleInputBlur schema (TString "name") st).2 = false.
Proof.
  intros schema st.
  assert (Hne : "name" ≠ "") by discriminate.
  assert (Hproto : "name" ≠ "__proto__") by discriminate.
  assert (Hrule : schema !! "name" = Some Examples.string_min_5) by reflexivity.
  split; [exact Hne|]. split; [exact Hproto|]. split; [exact Hrule|].
  destruct (isValid (handleInputBlur schema (TString "name") st).2) eqn:Hv; [|reflexivity].
  destruct (proj1 (handleInputBlur_then_isValid schema "name" Examples.string_min_5
                     st Hne Hproto Hrule) Hv) as [[data Hdata] _].
  discriminate Hdata.
Defined.

(** X8: [handleInputBlur] is idempotent: on unchanged values, a second call
    with the same trigger has the outcome of the first and leaves the store
    the first one left. *)
Theorem handleInputBlur_idempotent (schema : gmap string ZodType) (e : Trigger)
    (st : Store) :
  handleInputBlur schema e (handleInputBlur schema e st).2
  = handleInputBlur schema e st.
Proof.
  rewrite (handleInputBlur_run schema e st).
  destruct ((resolve e st).1) as [[name v]|x] eqn:Hres; simpl.
  - rewrite validate_resolved_cases.
    case_bool_decide as Hname.
    { simpl. rewrite handleInputBlur_run, Hres. simpl.
      by rewrite validate_resolved_cases, bool_decide_eq_true_2. }
    destruct (schema !! name) as [rule|] eqn:Hrule; simpl.
    + rewrite handleInputBlur_run.
      rewrite (resolve_values e _ st) by done. rewrite Hres. simpl.
      rewrite validate_resolved_cases, bool_decide_eq_false_2, Hrule by done.
      simpl. by rewrite assign_assign.
    + destruct (inherited name) eqn:Hinh; simpl;
        rewrite handleInputBlur_run, Hres; simpl;
        by rewrite validate_resolved_cases, bool_decide_eq_false_2, Hrule, Hinh.
  - by rewrite handleInputBlur_run, Hres.
Qed.

(** X9: on one field of the schema, the later of a manual override and a
    validation on blur wins and the earlier leaves no trace. *)
Theorem override_and_blur_last_wins (schema : gmap string ZodType) (name : string)
    (rule : ZodType) (errorValue : ErrorValue) (st : Store) :
  name ≠ "" → schema !! name = Some rule →
  handleInputBlur schema (TString name) (overrideFieldError name errorValue st).2
  = handleInputBlur schema (TString name) st
  ∧ overrideFieldError name errorValue (handleInputBlur schema (TString name) st).2
    = overrideFieldError name errorValue st.
Proof.
  intros Hne Hrule.
  rewrite !(handleInputBlur_resolved _ _ _ _ _ (resolve_string name _ Hne)).
  rewrite !(validate_resolved_own _ _ rule) by done.
  unfold overrideFieldError, set_error. simpl.
  by rewrite !assign_assign.
Qed.

Lemma override_and_blur_last_wins_witness :
  let schema : gmap string ZodType := {[ "name" := Examples.string_min_5 ]} in
  let st := mkStore (mockRef {[ "name" := JString "Johnny" ]}) ∅ in
  "name" ≠ "" ∧ schema !! "name" = Some Examples.string_min_5
  ∧ handleInputBlur schema (TString "name")
      (overrideFieldError "name" (EString "taken") st).2
    = handleInputBlur schema (TString "name") st
  ∧ overrideFieldError "name" (EString "taken")
      (handleInputBlur schema (TString "name") st).2
    = overrideFieldError "name" (EString "taken") st.
Proof.
  intros schema st.
  assert (Hne : "name" ≠ "") by discriminate.
  assert (Hrule : schema !! "name" = Some Examples.string_min_5) by reflexivity.
  split; [exact Hne|]. split; [exact Hrule|].
  exact (override_and_blur_last_wins schema "name" Examples.string_min_5
           (EString "taken") st Hne Hrule).
Defined.

(** ** Further properties: validating the whole form *)

Lemma written_last {A : Type} (key : A → string) (entry : A → ErrorValue)
    (l : list A) (errs : gmap string ErrorValue) (k : string) :
  k ≠ "__proto__" →
  written key entry l errs !! k
  = match last (List.filter (λ x, bool_decide (key x = k)) l) with
    | Some x => Some (entry x)
    | None => errs !! k
    end.
Proof.
  intros Hproto. revert errs. induction l as [|x l IH]; intros errs; simpl; [done|].
  rewrite IH. case_bool_decide as Hk.
  - rewrite last_cons.
    destruct (last (List.filter (λ x0, bool_decide (key x0 = k)) l)); [done|].
    subst k. by rewrite assign_ne_proto, lookup_insert_eq.
  - destruct (last (List.filter (λ x0, bool_decide (key x0 = k)) l)); [done|].
    by rewrite lookup_assign_ne.
Qed.

(** X10: [validate()] leaves the values alone and replaces the errors map:
    by the empty map when the parse succeeds; when it fails, by the map that
    holds, under each dotted path other than [__proto__], the message of the
    last issue reported for that path, and nothing else (no [false] entries,
    no earlier entries, and no entry under [__proto__]). *)
Theorem validate_errors
    (parse : gmap string JsValue → SafeParseReturn (gmap string JsValue))
    (st : Store) :
  let st' := (validate parse st).2 in
  values st' = values st
  ∧ match parse (value (values st)) with
    | ParseSuccess _ => errors st' = ∅
    | ParseFailure error =>
        ∀ k, errors st' !! k
             = if bool_decide (k = "__proto__") then None
               else last_message k (issues error)
    end.
Proof.
  simpl. rewrite validate_run.
  destruct (parse (value (values st))) as [data|error]; simpl; [done|].
  split; [done|]. intros k. case_bool_decide as Hk.
  - subst k. apply issue_entries_proto.
  - unfold issue_entries, last_message.
    rewrite written_last, lookup_empty by done.
    by destruct (last _).
Qed.

(** X11: the outcome of [validate()] and the store it leaves depend on the
    values only, not on the errors recorded before (overrides are dropped);
    in particular a second [validate()] in a row changes nothing. *)
Theorem validate_forgets_errors
    (parse : gmap string JsValue → SafeParseReturn (gmap string JsValue))
    (st1 st2 : Store) :
  values st1 = values st2 →
  validate parse st1 = validate parse st2
  ∧ validate parse (validate parse st1).2 = validate parse st1.
Proof.
  intros Hv. rewrite !validate_run, Hv. split; [done|].
  destruct (parse (value (values st2))) as [data|error] eqn:Hp; simpl;
    by rewrite Hp.
Qed.

Lemma validate_forgets_errors_witness :
  let shape : gmap string ZodType := {[ "name" := Examples.string_min_5 ]} in
  let current : gmap string JsValue := {[ "name" := JString "John" ]} in
  let st1 := mkStore (mockRef current) ∅ in
  let st2 := mkStore (mockRef current) {[ "server" := EString "taken" ]} in
  values st1 = values st2
  ∧ validate (Examples.z_object shape) st1 = validate (Examples.z_object shape) st2
  ∧ validate (Examples.z_object shape) (validate (Examples.z_object shape) st1).2
    = validate (Examples.z_object shape) st1.
Proof.
  intros shape current st1 st2.
  split; [reflexivity|].
  exact (validate_forgets_errors (Examples.z_object shape) st1 st2 eq_refl).
Defined.

(** ** Further properties: change detection *)

Lemma strict_ne_undefined (v : JsValue) :
  strict_ne v JUndefined = true ↔ v ≠ JUndefined.
Proof. destruct v; unfold strict_ne; simpl; split; intros; done. Qed.

Lemma strict_ne_self (v : JsValue) :
  strict_ne v v = true ↔ ∃ x, v = JNumber x ∧ PrimFloat.is_nan x = true.
Proof.
  destruct v as [| |b|x|s|r|m]; unfold strict_ne; simpl;
    try (rewrite bool_decide_eq_true_2 by done; simpl);
    try (split; [discriminate|by intros (? & ? & _)]).
  split.
  - intros H. by exists x.
  - by intros (y & [= <-] & H).
Qed.

(** X13: a key the second object lacks (and does not inherit) is reported
    by [diffKeys] exactly when the first object has it with a value other
    than [undefined]: a field added as [undefined] goes unnoticed. *)
Theorem diffKeys_added_key (obj1 obj2 : gmap string JsValue) (k : string) :
  obj2 !! k = None → inherited k = false →
  (k ∈ diffKeys obj1 obj2 ↔ ∃ v, obj1 !! k = Some v ∧ v ≠ JUndefined).
Proof.
  intros Hnone Hinh. rewrite elem_of_diffKeys.
  assert (Hget2 : get obj2 k = JUndefined).
  { unfold get, get_property. by rewrite Hnone, Hinh. }
  rewrite Hget2. split.
  - intros [[v Hv] Hne]. exists v. split; [done|].
    apply strict_ne_undefined. unfold get, get_property in Hne. by rewrite Hv in Hne.
  - intros (v & Hv & Hne). split; [by eexists|].
    unfold get, get_property. rewrite Hv. by apply strict_ne_undefined.
Qed.

Lemma diffKeys_added_key_witness :
  let oldValues : gmap string JsValue := {[ "name" := JString "John" ]} in
  let newValues : gmap string JsValue :=
    {[ "name" := JString "John"; "email" := JString "a@b.c"; "age" := JUndefined ]} in
  (oldValues !! "email" = None ∧ inherited "email" = false
   ∧ "email" ∈ diffKeys newValues oldValues)
  ∧ (oldValues !! "age" = None ∧ inherited "age" = false
     ∧ "age" ∉ diffKeys newValues oldValues).
Proof.
  intros oldValues newValues. split.
  - split; [reflexivity|]. split; [reflexivity|].
    apply (proj2 (diffKeys_added_key newValues oldValues "email" eq_refl eq_refl)).
    exists (JString "a@b.c"). split; [reflexivity|discriminate].
  - split; [reflexivity|]. split; [reflexivity|].
    intros Hin.
    destruct (proj1 (diffKeys_added_key newValues oldValues "age" eq_refl eq_refl) Hin)
      as (v & Hv & Hne).
    apply Hne. vm_compute in Hv. congruence.
Defined.

(** X14: a key that holds the same value in both objects is reported by
    [diffKeys] exactly when that value is the number [NaN]. *)
Theorem diffKeys_same_value (obj1 obj2 : gmap string JsValue) (k : string)
    (v : JsValue) :
  obj1 !! k = Some v → obj2 !! k = Some v →
  (k ∈ diffKeys obj1 obj2 ↔ ∃ x, v = JNumber x ∧ PrimFloat.is_nan x = true).
Proof.
  intros H1 H2. rewrite elem_of_diffKeys. unfold get, get_property.
  rewrite H1, H2, strict_ne_self. split; [by intros [_ ?]|].
  intros H. split; [by eexists|done].
Qed.

Lemma diffKeys_same_value_witness :
  let snapshot : gmap string JsValue :=
    {[ "name" := JString "John"; "age" := JNumber nan ]} in
  (snapshot !! "name" = Some (JString "John") ∧ "name" ∉ diffKeys snapshot snapshot)
  ∧ (snapshot !! "age" = Some (JNumber nan) ∧ "age" ∈ diffKeys snapshot snapshot).
Proof.
  intros snapshot. split.
  - split; [reflexivity|]. intros Hin.
    destruct (proj1 (diffKeys_same_value snapshot snapshot "name" (JString "John")
                       eq_refl eq_refl) Hin) as (x & Hx & _).
    discriminate Hx.
  - split; [reflexivity|].
    apply (proj2 (diffKeys_same_value snapshot snapshot "age" (JNumber nan)
                    eq_refl eq_refl)).
    exists nan. split; reflexivity.
Defined.

(** ** Further properties: the subscription *)

Lemma validateProperty_no_rule (schema : gmap string ZodType) (name : string)
    (v : JsValue) (st : Store) :
  schema !! name = None →
  validateProperty schema name v st = (Throw TypeError, st).
Proof.
  intros Hnone. unfold validateProperty, get_property. rewrite Hnone.
  by destruct (inherited name).
Qed.

Lemma for_of_validateProperty_step (schema : gmap string ZodType)
    (newValues : gmap string JsValue) (k : string) (l : list string) (st : Store) :
  for_of (k :: l) (λ p, bind (validateProperty schema p (get newValues p))
                             (λ _, ret ())) st
  = match schema !! k with
    | Some rule =>
        for_of l (λ p, bind (validateProperty schema p (get newValues p))
                            (λ _, ret ()))
               (mkStore (values st)
                  (assign (errors st) k (error_entry (safeParse rule (get newValues k)))))
    | None => (Throw TypeError, st)
    end.
Proof.
  simpl. unfold bind at 1 2.
  destruct (schema !! k) as [rule|] eqn:Hrule.
  - by rewrite (validateProperty_own _ _ rule).
  - by rewrite validateProperty_no_rule.
Qed.

Lemma for_of_validateProperty_outcome (schema : gmap string ZodType)
    (newValues : gmap string JsValue) (l : list string) (st : Store) :
  let run := for_of l (λ p, bind (validateProperty schema p (get newValues p))
                                 (λ _, ret ())) st in
  values run.2 = values st
  ∧ (∀ k, k ∉ l → errors run.2 !! k = errors st !! k)
  ∧ (∀ k, errors run.2 !! k = errors st !! k
          ∨ errors run.2 !! k = Some (rule_entry schema newValues k)
            ∧ is_Some (schema !! k))
  ∧ (run.1 = Normal () ∧ (∀ k, k ∈ l → is_Some (schema !! k))
     ∨ run.1 = Throw TypeError ∧ ∃ k, k ∈ l ∧ schema !! k = None).
Proof.
  revert st. induction l as [|k l IH]; intros st; cbv zeta.
  - simpl. split; [done|]. split; [done|]. split; [by left|]. left. split; [done|].
    intros k Hk. by apply elem_of_nil in Hk.
  - specialize (IH (mkStore (values st)
                      (assign (errors st) k (rule_entry schema newValues k)))).
    cbv zeta in IH. rewrite for_of_validateProperty_step.
    destruct (schema !! k) as [rule|] eqn:Hrule.
    + assert (He : rule_entry schema newValues k
                   = error_entry (safeParse rule (get newValues k)))
        by (unfold rule_entry; by rewrite Hrule).
      rewrite He in IH. clear He.
      destruct IH as (Hv & Hframe & Hentry & Hout).
      split; [done|]. split; [|split].
      * intros k' Hk'. rewrite Hframe by (intros ?; apply Hk'; by right).
        simpl. rewrite lookup_assign_ne; [done|].
        intros ->. apply Hk'. by left.
      * intros k'. destruct (Hentry k') as [Hsame|Hset]; [|by right].
        rewrite Hsame. simpl.
        destruct (assign_cases (errors st) k
                    (error_entry (safeParse rule (get newValues k))))
          as [[-> _]|[-> _]]; [by left|].
        destruct (decide (k = k')) as [<-|Hne].
        -- right. rewrite lookup_insert_eq. unfold rule_entry. rewrite Hrule.
           split; [done|by eexists].
        -- left. by rewrite lookup_insert_ne.
      * destruct Hout as [[Hn Hall]|[Ht (k' & Hk' & Hnone)]].
        -- left. split; [done|]. intros k' [->|Hk']%elem_of_cons; [by eexists|by apply Hall].
        -- right. split; [done|]. exists k'. split; [by right|done].
    + clear IH.
      simpl.
      split; [done|]. split; [done|]. split; [by left|]. right. split; [done|].
      exists k. split; [by left|done].
Qed.

(** X15: the callback of the subscription never touches the values nor the
    entries of fields outside the diff, however it ends; with at most one
    field in the diff it completes without a write; with more than one field
    in the diff, one of them without a rule in the schema, it does not
    complete: it throws. *)
Theorem watch_callback_outcome (schema : gmap string ZodType)
    (newValues oldValues : gmap string JsValue) (st : Store) :
  let changed := propertiesThatChanged newValues oldValues in
  let run := watch_callback schema newValues oldValues st in
  values run.2 = values st
  ∧ (∀ k, k ∉ changed → errors run.2 !! k = errors st !! k)
  ∧ ((length changed ≤ 1)%nat → run = (Normal (), st))
  ∧ ((1 < length changed)%nat →
     (∃ k, k ∈ changed ∧ schema !! k = None) →
     ∃ x, run.1 = Throw x).
Proof.
  intros changed run. subst run. unfold watch_callback. fold changed.
  destruct (Nat.ltb_spec 1 (length changed)) as [Hlen|Hlen].
  - destruct (for_of_validateProperty_outcome schema newValues changed st)
      as (Hv & Hframe & _ & Hout).
    split; [done|]. split; [done|]. split; [lia|].
    intros _ (k & Hk & Hnone).
    destruct Hout as [[_ Hall]|[Ht _]]; [|by exists TypeError].
    destruct (Hall k Hk) as [rule Hrule]. congruence.
  - simpl. split; [done|]. split; [done|]. split; [done|]. lia.
Qed.

(** ** Further properties: construction *)

(** X16: with a [ZodObject] the constructor never throws, whatever the
    mode: the instance starts with an empty errors map, [isValid] reading
    [true], and the values as they were; it subscribes to the values in
    [onChange] mode only, so in [onBlur] mode an update of the values
    validates nothing. *)
Theorem useZodFormValidator_object_schema
    (z_object : gmap string ZodType → gmap string JsValue
                → SafeParseReturn (gmap string JsValue))
    (shape : gmap string ZodType)
    (parse : gmap string JsValue → SafeParseReturn (gmap string JsValue))
    (options : Options) (st : Store) :
  ∃ instance st',
    useZodFormValidator z_object (ZodObject shape parse) options st
    = (Normal instance, st')
    ∧ values st' = values st ∧ errors st' = ∅
    ∧ Instance.isValid instance st' = true
    ∧ (is_Some (Instance.subscription instance) ↔ mode options = onChange)
    ∧ (mode options = onBlur →
       ∀ newValues oldValues s,
         notify shape options newValues oldValues s = (Normal (), s)).
Proof.
  eexists _, _. split; [reflexivity|]. split; [reflexivity|]. split; [reflexivity|].
  simpl. split.
  { apply isValid_true_iff. intros k v. simpl. by rewrite lookup_empty. }
  unfold subscription, notify, subscription. destruct options as [[|]]; simpl.
  - split; [split; [by intros [? ?]|discriminate]|done].
  - split; [split; [done|by eexists]|discriminate].
Qed.

(** ** Further properties: what the composable writes *)

(** X17: boolean [true] enters the errors map through [overrideFieldError]
    only: if no entry is [true], none is after [handleInputBlur],
    [validate], [clear] or the callback of the subscription, however they
    end. *)
Theorem only_override_writes_true (schema : gmap string ZodType)
    (parse : gmap string JsValue → SafeParseReturn (gmap string JsValue))
    (e : Trigger) (newValues oldValues : gmap string JsValue) (st : Store) :
  no_true_entry (errors st) →
  no_true_entry (errors (handleInputBlur schema e st).2)
  ∧ no_true_entry (errors (validate parse st).2)
  ∧ no_true_entry (errors (clear st).2)
  ∧ no_true_entry (errors (watch_callback schema newValues oldValues st).2).
Proof.
  intros Hno. split; [|split; [|split]].
  - rewrite handleInputBlur_run.
    destruct ((resolve e st).1) as [[name v]|x]; simpl; [|done].
    rewrite validate_resolved_cases. case_bool_decide; [done|].
    destruct (schema !! name) as [rule|]; [|by destruct (inherited name)].
    simpl. intros k.
    destruct (assign_cases (errors st) name (error_entry (safeParse rule v)))
      as [[-> _]|[-> _]]; [apply Hno|].
    rewrite lookup_insert. case_decide; simpl; [|apply Hno].
    intros [= H']. by apply (error_entry_not_true (safeParse rule v)).
  - rewrite validate_run.
    destruct (parse (value (values st))) as [data|error]; simpl.
    + intros k. by rewrite lookup_empty.
    + intros k Hk. by apply issue_entries_strings in Hk.
  - intros k. simpl. by rewrite lookup_empty.
  - unfold watch_callback.
    destruct (1 <? length (propertiesThatChanged newValues oldValues))%nat; [|done].
    destruct (for_of_validateProperty_outcome schema newValues
                (propertiesThatChanged newValues oldValues) st)
      as (_ & _ & Hentry & _).
    intros k. destruct (Hentry k) as [->|[-> [rule Hrule]]]; [apply Hno|].
    unfold rule_entry. rewrite Hrule.
    intros [= H']. by apply (error_entry_not_true (safeParse rule (get newValues k))).
Qed.

Lemma only_override_writes_true_witness :
  let schema : gmap string ZodType := {[ "name" := Examples.string_min_5 ]} in
  let current : gmap string JsValue := {[ "name" := JString "John" ]} in
  let st := mkStore (mockRef current) {[ "server" := EString "taken" ]} in
  no_true_entry (errors st)
  ∧ no_true_entry (errors (handleInputBlur schema (TString "name") st).2)
  ∧ no_true_entry (errors (validate (Examples.z_object schema) st).2)
  ∧ no_true_entry (errors (clear st).2)
  ∧ no_true_entry (errors (watch_callback schema current ∅ st).2).
Proof.
  intros schema current st.
  assert (Hno : no_true_entry (errors st)).
  { intros k. simpl. rewrite lookup_singleton. by case_decide. }
  split; [exact Hno|].
  exact (only_override_writes_true schema (Examples.z_object schema)
           (TString "name") current ∅ st Hno).
Defined.
